(** * moveit_core: the revolute joint model and the kinematic state

    A shallow embedding of [robot_model2/src/revolute_joint_model.cpp] and of
    the dense value setter declared in
    [planning_models/include/planning_models/kinematic_state.h].

    Numbers: a C++ [double] is read as a real number ([R]), so [+], [-], [*]
    and [/] are exact and there is neither rounding nor NaN.  The constant
    [boost::math::constants::pi<double>()] is [PI].

    Arrays: a [double*] or a [std::vector] indexed with [[0]] is a list; an
    access to a missing element (undefined behaviour in C++) makes the
    operation return [None]. *)

From Stdlib Require Import Reals Lra Lia ZArith List Bool String RNsatz.
Import ListNotations.
Open Scope R_scope.

(** ** Array access at index 0 *)

Definition at0 {A : Type} (l : list A) : option A := nth_error l 0.

Definition set0 {A : Type} (x : A) (l : list A) : option (list A) :=
  match l with
  | [] => None
  | _ :: rest => Some (x :: rest)
  end.

Definition obind {A B : Type} (o : option A) (k : A -> option B) : option B :=
  match o with
  | Some a => k a
  | None => None
  end.

Notation "x <- o ;; k" := (obind o (fun x => k))
  (at level 61, o at next level, right associativity).

(** ** Comparisons of doubles as booleans *)

Definition Rltb (x y : R) : bool := if Rlt_dec x y then true else false.
Definition Rgtb (x y : R) : bool := if Rgt_dec x y then true else false.
Definition Rleb (x y : R) : bool := if Rle_dec x y then true else false.
Definition Rgeb (x y : R) : bool := if Rge_dec x y then true else false.

(** ** The functions of <cmath> the joint model calls *)

Module CMath.

Definition fabs (x : R) : R := Rabs x.

(** Rounding toward zero: the integer part of a non-negative number, minus
    the integer part of the opposite of a negative one. *)
Definition trunc (x : R) : Z :=
  if Rle_dec 0 x then Int_part x else (- Int_part (- x))%Z.

(** [fmod x y] is [x - n * y] with [n] the quotient [x / y] rounded toward
    zero: the result has the sign of [x] and a magnitude below [|y|]. *)
Definition fmod (x y : R) : R := x - IZR (trunc (x / y)) * y.

End CMath.
Import CMath.

(** ** Data model *)

Record VariableBounds : Type := mkVariableBounds {
  min_position_ : R;
  max_position_ : R;
  position_bounded_ : bool
}.

Definition Bounds : Type := list VariableBounds.

Record Vector3d : Type := mkVector3d { vx : R; vy : R; vz : R }.

Inductive JointType : Type :=
  UNKNOWN | REVOLUTE | PRISMATIC | PLANAR | FLOATING | FIXED.

Record RevoluteJointModel : Type := mkRevoluteJointModel {
  name_ : string;
  type_ : JointType;
  variable_names_ : list string;
  variable_bounds_ : Bounds;
  axis_ : Vector3d;
  continuous_ : bool
}.

(** The constructor: a bounded joint over [[-PI, PI]] with a zero axis. *)
Definition RevoluteJointModel_new (name : string) : RevoluteJointModel :=
  {| name_ := name;
     type_ := REVOLUTE;
     variable_names_ := [name];
     variable_bounds_ :=
       [ {| min_position_ := - PI; max_position_ := PI;
            position_bounded_ := true |} ];
     axis_ := mkVector3d 0 0 0;
     continuous_ := false |}.

(** ** Operations of the revolute joint *)

Definition getStateSpaceDimension (j : RevoluteJointModel) : nat := 1.

Definition getMaximumExtent (j : RevoluteJointModel) (other_bounds : Bounds)
  : option R :=
  b <- at0 (variable_bounds_ j) ;;
  Some (max_position_ b - min_position_ b).

Definition getVariableDefaultValues (j : RevoluteJointModel)
  (values : list R) (bounds : Bounds) : option (list R) :=
  b <- at0 bounds ;;
  if Rleb (min_position_ b) 0 && Rgeb (max_position_ b) 0
  then set0 0 values
  else set0 ((min_position_ b + max_position_ b) / 2) values.

Definition interpolate (j : RevoluteJointModel)
  (from to : list R) (t : R) (state : list R) : option (list R) :=
  from0 <- at0 from ;;
  to0 <- at0 to ;;
  if continuous_ j then
    let diff := to0 - from0 in
    if Rleb (fabs diff) PI then set0 (from0 + diff * t) state
    else
      let diff :=
        if Rgtb diff 0 then 2 * PI - diff else - 2 * PI - diff in
      let s := from0 - diff * t in
      if Rgtb s PI then set0 (s - 2 * PI) state
      else if Rltb s (- PI) then set0 (s + 2 * PI) state
      else set0 s state
  else set0 (from0 + (to0 - from0) * t) state.

Definition distance (j : RevoluteJointModel) (values1 values2 : list R)
  : option R :=
  v1 <- at0 values1 ;;
  v2 <- at0 values2 ;;
  if continuous_ j then
    let d := fabs (v1 - v2) in
    Some (if Rgtb d PI then 2 * PI - d else d)
  else Some (fabs (v1 - v2)).

Definition satisfiesBounds (j : RevoluteJointModel)
  (values : list R) (bounds : Bounds) (margin : R) : option bool :=
  if continuous_ j then Some true
  else
    v <- at0 values ;;
    b <- at0 bounds ;;
    if Rltb v (min_position_ b - margin) || Rgtb v (max_position_ b + margin)
    then Some false
    else Some true.

Definition enforceBounds (j : RevoluteJointModel)
  (values : list R) (bounds : Bounds) : option (list R) :=
  if continuous_ j then
    v <- at0 values ;;
    let v := fmod v (2 * PI) in
    if Rltb v (- PI) then set0 (v + 2 * PI) values
    else if Rgtb v PI then set0 (v - 2 * PI) values
    else set0 v values
  else
    v <- at0 values ;;
    b <- at0 bounds ;;
    if Rltb v (min_position_ b) then set0 (min_position_ b) values
    else if Rgtb v (max_position_ b) then set0 (max_position_ b) values
    else Some values.

(** ** The parts of Eigen's Geometry module the joint model calls

    [computeTransform] builds an [Eigen::Affine3d] from an
    [Eigen::AngleAxisd]; [computeVariableValues] reads the rotation of a
    transform back as an [Eigen::Quaterniond].  The definitions follow
    Eigen's [AngleAxis::toRotationMatrix] and its assignment of a 3x3
    matrix to a quaternion. *)

Module Eigen.

Record Matrix3d : Type := mkMatrix3d {
  m00 : R; m01 : R; m02 : R;
  m10 : R; m11 : R; m12 : R;
  m20 : R; m21 : R; m22 : R
}.

Record Affine3d : Type := mkAffine3d {
  linear : Matrix3d;
  translation : Vector3d
}.

(** Coefficients in Eigen's storage order [x, y, z, w]. *)
Record Quaterniond : Type := mkQuaterniond {
  qx : R; qy : R; qz : R; qw : R
}.

Definition coeff (m : Matrix3d) (r c : nat) : R :=
  match r, c with
  | 0%nat, 0%nat => m00 m | 0%nat, 1%nat => m01 m | 0%nat, 2%nat => m02 m
  | 1%nat, 0%nat => m10 m | 1%nat, 1%nat => m11 m | 1%nat, 2%nat => m12 m
  | 2%nat, 0%nat => m20 m | 2%nat, 1%nat => m21 m | 2%nat, 2%nat => m22 m
  | _, _ => 0
  end.

Definition trace (m : Matrix3d) : R := m00 m + m11 m + m22 m.

(** [AngleAxis::toRotationMatrix]: Rodrigues' formula. *)
Definition toRotationMatrix (angle : R) (axis : Vector3d) : Matrix3d :=
  let sx := sin angle * vx axis in
  let sy := sin angle * vy axis in
  let sz := sin angle * vz axis in
  let c := cos angle in
  let c1x := (1 - c) * vx axis in
  let c1y := (1 - c) * vy axis in
  let c1z := (1 - c) * vz axis in
  let tmp_xy := c1x * vy axis in
  let tmp_xz := c1x * vz axis in
  let tmp_yz := c1y * vz axis in
  {| m00 := c1x * vx axis + c;
     m01 := tmp_xy - sz;
     m02 := tmp_xz + sy;
     m10 := tmp_xy + sz;
     m11 := c1y * vy axis + c;
     m12 := tmp_yz - sx;
     m20 := tmp_xz - sy;
     m21 := tmp_yz + sx;
     m22 := c1z * vz axis + c |}.

Definition isUnit (a : Vector3d) : Prop :=
  vx a * vx a + vy a * vy a + vz a * vz a = 1.

Definition Identity : Matrix3d := mkMatrix3d 1 0 0 0 1 0 0 0 1.

Definition transpose (m : Matrix3d) : Matrix3d :=
  mkMatrix3d (m00 m) (m10 m) (m20 m)
             (m01 m) (m11 m) (m21 m)
             (m02 m) (m12 m) (m22 m).

Definition mul (a b : Matrix3d) : Matrix3d :=
  mkMatrix3d
    (m00 a * m00 b + m01 a * m10 b + m02 a * m20 b)
    (m00 a * m01 b + m01 a * m11 b + m02 a * m21 b)
    (m00 a * m02 b + m01 a * m12 b + m02 a * m22 b)
    (m10 a * m00 b + m11 a * m10 b + m12 a * m20 b)
    (m10 a * m01 b + m11 a * m11 b + m12 a * m21 b)
    (m10 a * m02 b + m11 a * m12 b + m12 a * m22 b)
    (m20 a * m00 b + m21 a * m10 b + m22 a * m20 b)
    (m20 a * m01 b + m21 a * m11 b + m22 a * m21 b)
    (m20 a * m02 b + m21 a * m12 b + m22 a * m22 b).

Definition determinant (m : Matrix3d) : R :=
  m00 m * (m11 m * m22 m - m12 m * m21 m)
  - m01 m * (m10 m * m22 m - m12 m * m20 m)
  + m02 m * (m10 m * m21 m - m11 m * m20 m).

(** A proper rotation: orthogonal, of determinant 1. *)
Definition isRotation (m : Matrix3d) : Prop :=
  mul m (transpose m) = Identity /\ determinant m = 1.

(** [Affine3d(AngleAxisd(angle, axis))]: that rotation, no translation. *)
Definition Affine3d_of_AngleAxisd (angle : R) (axis : Vector3d) : Affine3d :=
  {| linear := toRotationMatrix angle axis;
     translation := mkVector3d 0 0 0 |}.

(** [Transform::rotation()] is the rotation factor of the polar
    decomposition of the linear part.  A linear part that is a proper
    rotation ([isRotation]) is its own factor, and the factor is read as
    the linear part: [rotation] stands for the source's function on the
    transforms a unit axis produces ([toRotationMatrix_isRotation]). *)
Definition rotation (t : Affine3d) : Matrix3d := linear t.

(** Writes coefficient [i] of the storage order [x, y, z, w]. *)
Definition set_coeff (q : Quaterniond) (i : nat) (v : R) : Quaterniond :=
  match i with
  | 0%nat => mkQuaterniond v (qy q) (qz q) (qw q)
  | 1%nat => mkQuaterniond (qx q) v (qz q) (qw q)
  | 2%nat => mkQuaterniond (qx q) (qy q) v (qw q)
  | _ => mkQuaterniond (qx q) (qy q) (qz q) v
  end.

(** [Quaterniond(mat)]: the scalar part comes from the trace when it is
    positive, otherwise the largest diagonal entry leads. *)
Definition Quaterniond_of_Matrix3d (mat : Matrix3d) : Quaterniond :=
  let t := trace mat in
  if Rgtb t 0 then
    let t := sqrt (t + 1) in
    let w := (1 / 2) * t in
    let t := (1 / 2) / t in
    {| qx := (coeff mat 2 1 - coeff mat 1 2) * t;
       qy := (coeff mat 0 2 - coeff mat 2 0) * t;
       qz := (coeff mat 1 0 - coeff mat 0 1) * t;
       qw := w |}
  else
    let i := 0%nat in
    let i := if Rgtb (coeff mat 1 1) (coeff mat 0 0) then 1%nat else i in
    let i := if Rgtb (coeff mat 2 2) (coeff mat i i) then 2%nat else i in
    let j := ((i + 1) mod 3)%nat in
    let k := ((j + 1) mod 3)%nat in
    let t := sqrt (coeff mat i i - coeff mat j j - coeff mat k k + 1) in
    let q := set_coeff (mkQuaterniond 0 0 0 0) i ((1 / 2) * t) in
    let t := (1 / 2) / t in
    let q := set_coeff q 3 ((coeff mat k j - coeff mat j k) * t) in
    let q := set_coeff q j ((coeff mat j i + coeff mat i j) * t) in
    set_coeff q k ((coeff mat k i + coeff mat i k) * t).

Definition squaredNorm (q : Quaterniond) : R :=
  qx q * qx q + qy q * qy q + qz q * qz q + qw q * qw q.

Definition norm (q : Quaterniond) : R := sqrt (squaredNorm q).

(** [normalize()]: every coefficient divided by the norm. *)
Definition normalize (q : Quaterniond) : Quaterniond :=
  {| qx := qx q / norm q; qy := qy q / norm q;
     qz := qz q / norm q; qw := qw q / norm q |}.

End Eigen.

(** ** Forward and inverse transform of the revolute joint *)

Definition computeTransform (j : RevoluteJointModel) (joint_values : list R)
  : option Eigen.Affine3d :=
  v <- at0 joint_values ;;
  Some (Eigen.Affine3d_of_AngleAxisd v (axis_ j)).

Definition computeVariableValues (j : RevoluteJointModel)
  (transf : Eigen.Affine3d) (joint_values : list R) : option (list R) :=
  let q := Eigen.Quaterniond_of_Matrix3d (Eigen.rotation transf) in
  let q := Eigen.normalize q in
  set0 (acos (Eigen.qw q) * 2) joint_values.

(** ** The dense value setter of the kinematic state *)

Module KinematicState.

(** Modelled from the spec: the declaration of [JointState] is not among the
    sources.  A joint state owns the current values of one joint, as many
    as the joint's dimension, and a dirty flag set when a value changes. *)
Record JointState : Type := mkJointState {
  joint_name_ : string;
  joint_state_values_ : list R;
  dirty_ : bool
}.

(** The state: the variable count of its (shared, read-only) model and the
    vector of joint states, in the model's joint order. *)
Record t : Type := mkKinematicState {
  model_variable_count_ : nat;
  joint_state_vector_ : list JointState
}.

Definition getVariableCount (ks : t) : nat := model_variable_count_ ks.

(** Modelled from the spec: the body of the dense getter is not among the
    sources.  It returns the current values of all joints, in the model's
    canonical order. *)
Definition getStateValues (ks : t) : list R :=
  flat_map joint_state_values_ (joint_state_vector_ ks).

(** Modelled from the spec: the body of the dense setter is not among the
    sources (the header only declares it).  Each joint takes as many values
    as its dimension, in order, and is marked dirty. *)
Fixpoint assignValues (js : list JointState) (vals : list R)
  : list JointState :=
  match js with
  | [] => []
  | j :: rest =>
      let dim := List.length (joint_state_values_ j) in
      {| joint_name_ := joint_name_ j;
         joint_state_values_ := firstn dim vals;
         dirty_ := true |} :: assignValues rest (skipn dim vals)
  end.

(** Modelled from the spec: the body of
    [KinematicState::setStateValues(const std::vector<double>&)] is not
    among the sources.  The setter fails, returning a failure indicator and
    leaving the state as it was, when the length of the vector is not the
    model's variable count; otherwise it assigns the values in the model's
    canonical order. *)
Definition setStateValues (ks : t) (joint_state_values : list R)
  : bool * t :=
  if Nat.eqb (List.length joint_state_values) (getVariableCount ks) then
    (true,
     {| model_variable_count_ := model_variable_count_ ks;
        joint_state_vector_ :=
          assignValues (joint_state_vector_ ks) joint_state_values |})
  else (false, ks).

End KinematicState.

(** ** Switching the bounds, and sampling *)

(** [setContinuous]: rewrites the joint's first bounds and nothing else; the
    member [continuous_] is not assigned.  The closing call to
    [computeVariableBoundsMsg()] refreshes the message copy of the bounds
    held by the base class, which none of the operations here reads. *)
Definition setContinuous (j : RevoluteJointModel) (flag : bool)
  : option RevoluteJointModel :=
  b <- at0 (variable_bounds_ j) ;;
  let b' :=
    if flag then
      {| min_position_ := - PI; max_position_ := PI;
         position_bounded_ := false |}
    else
      {| min_position_ := min_position_ b; max_position_ := max_position_ b;
         position_bounded_ := true |} in
  bs <- set0 b' (variable_bounds_ j) ;;
  Some {| name_ := name_ j; type_ := type_ j;
          variable_names_ := variable_names_ j;
          variable_bounds_ := bs;
          axis_ := axis_ j; continuous_ := continuous_ j |}.

(** The generator of [random_numbers]: [uniformReal rng lower upper] draws a
    number and advances the generator. *)
Class RandomNumberGenerator (G : Type) : Type := {
  uniformReal : G -> R -> R -> R * G
}.

(** What the library promises of a draw between ordered limits. *)
Definition drawsWithin {G : Type} `{RandomNumberGenerator G} (rng : G)
  : Prop :=
  forall lower upper : R,
    lower <= upper -> lower <= fst (uniformReal rng lower upper) <= upper.

Definition getVariableRandomValues {G : Type} `{RandomNumberGenerator G}
  (j : RevoluteJointModel) (rng : G) (values : list R) (bounds : Bounds)
  : option (list R * G) :=
  b <- at0 bounds ;;
  let (x, rng') := uniformReal rng (min_position_ b) (max_position_ b) in
  values' <- set0 x values ;;
  Some (values', rng').

Definition getVariableRandomValuesNearBy {G : Type}
  `{RandomNumberGenerator G}
  (j : RevoluteJointModel) (rng : G) (values : list R) (bounds : Bounds)
  (near : list R) (distance : R) : option (list R * G) :=
  if continuous_ j then
    near0 <- at0 near ;;
    let (x, rng') := uniformReal rng (near0 - distance) (near0 + distance) in
    values' <- set0 x values ;;
    values'' <- enforceBounds j values' bounds ;;
    Some (values'', rng')
  else
    b <- at0 bounds ;;
    near0 <- at0 near ;;
    let (x, rng') :=
      uniformReal rng (Rmax (min_position_ b) (near0 - distance))
                      (Rmin (max_position_ b) (near0 + distance)) in
    values' <- set0 x values ;;
    Some (values', rng').

(** ** Sample joints *)

(** A generator that always draws at the same fraction of the interval. *)
Record FixedFraction : Type := mkFixedFraction { fraction : R }.

#[export] Instance FixedFraction_generator
  : RandomNumberGenerator FixedFraction :=
  {| uniformReal := fun g lower upper =>
       (lower + (upper - lower) * fraction g, g) |}.


Definition unbounded_pi : VariableBounds :=
  {| min_position_ := - PI; max_position_ := PI; position_bounded_ := false |}.

(** A continuous joint turning about the z axis. *)
Definition continuous_z : RevoluteJointModel :=
  {| name_ := "wheel"; type_ := REVOLUTE; variable_names_ := ["wheel"%string];
     variable_bounds_ := [unbounded_pi];
     axis_ := mkVector3d 0 0 1; continuous_ := true |}.

(** A bounded joint turning about the z axis. *)
Definition bounded_z : RevoluteJointModel :=
  {| name_ := "elbow"; type_ := REVOLUTE; variable_names_ := ["elbow"%string];
     variable_bounds_ := variable_bounds_ (RevoluteJointModel_new "elbow");
     axis_ := mkVector3d 0 0 1; continuous_ := false |}.

(** A state of two joints, of one variable each. *)
Definition two_joint_state : KinematicState.t :=
  {| KinematicState.model_variable_count_ := 2;
     KinematicState.joint_state_vector_ :=
       [ KinematicState.mkJointState "shoulder" [1 / 2] false;
         KinematicState.mkJointState "elbow" [- 1] false ] |}.

(** * Properties *)

(** ** Comparisons *)

Lemma Rltb_true x y : Rltb x y = true <-> x < y.
Proof. unfold Rltb; destruct (Rlt_dec x y); split; intros; try easy; lra. Qed.

Lemma Rltb_false x y : Rltb x y = false <-> y <= x.
Proof. unfold Rltb; destruct (Rlt_dec x y); split; intros; try easy; lra. Qed.

Lemma Rgtb_true x y : Rgtb x y = true <-> y < x.
Proof. unfold Rgtb; destruct (Rgt_dec x y); split; intros; try easy; lra. Qed.

Lemma Rgtb_false x y : Rgtb x y = false <-> x <= y.
Proof. unfold Rgtb; destruct (Rgt_dec x y); split; intros; try easy; lra. Qed.

Lemma Rleb_true x y : Rleb x y = true <-> x <= y.
Proof. unfold Rleb; destruct (Rle_dec x y); split; intros; try easy; lra. Qed.

Lemma Rleb_false x y : Rleb x y = false <-> y < x.
Proof. unfold Rleb; destruct (Rle_dec x y); split; intros; try easy; lra. Qed.

Lemma Rgeb_true x y : Rgeb x y = true <-> y <= x.
Proof. unfold Rgeb; destruct (Rge_dec x y); split; intros; try easy; lra. Qed.

Lemma Rgeb_false x y : Rgeb x y = false <-> x < y.
Proof. unfold Rgeb; destruct (Rge_dec x y); split; intros; try easy; lra. Qed.

(** Case analysis on every comparison left in the goal. *)
Ltac cmp :=
  repeat match goal with
  | |- context [Rltb ?x ?y] =>
      let E := fresh "E" in
      destruct (Rltb x y) eqn:E;
      [apply Rltb_true in E | apply Rltb_false in E]
  | |- context [Rgtb ?x ?y] =>
      let E := fresh "E" in
      destruct (Rgtb x y) eqn:E;
      [apply Rgtb_true in E | apply Rgtb_false in E]
  | |- context [Rleb ?x ?y] =>
      let E := fresh "E" in
      destruct (Rleb x y) eqn:E;
      [apply Rleb_true in E | apply Rleb_false in E]
  | |- context [Rgeb ?x ?y] =>
      let E := fresh "E" in
      destruct (Rgeb x y) eqn:E;
      [apply Rgeb_true in E | apply Rgeb_false in E]
  end.

Lemma PI_gt_3 : 3 < PI.
Proof. pose proof PI2_3_2; lra. Qed.

(** ** Extent and default value *)

(** C10: [getMaximumExtent] does not look at its argument: whatever bounds
    the caller passes, the result is the width [max - min] of the joint's own
    first bounds; for a newly constructed joint that width is [2 * PI]. *)
Theorem getMaximumExtent_own_bounds :
  forall (j : RevoluteJointModel) (b : VariableBounds)
         (rest other_bounds : Bounds) (name : string),
    variable_bounds_ j = b :: rest ->
    getMaximumExtent j other_bounds = Some (max_position_ b - min_position_ b)
    /\ getMaximumExtent (RevoluteJointModel_new name) other_bounds
       = Some (2 * PI).
Proof.
  intros j b rest other name Hb; split.
  - unfold getMaximumExtent; rewrite Hb; reflexivity.
  - unfold getMaximumExtent; simpl; f_equal; lra.
Qed.

Lemma getMaximumExtent_own_bounds_witness :
  getMaximumExtent bounded_z [mkVariableBounds 0 1 true]
  = Some (max_position_ (mkVariableBounds (- PI) PI true)
          - min_position_ (mkVariableBounds (- PI) PI true))
  /\ getMaximumExtent (RevoluteJointModel_new "elbow")
       [mkVariableBounds 0 1 true] = Some (2 * PI).
Proof.
  apply (getMaximumExtent_own_bounds bounded_z
           (mkVariableBounds (- PI) PI true) [] [mkVariableBounds 0 1 true]
           "elbow").
  reflexivity.
Defined.

(** C8: [getVariableDefaultValues] writes 0 when [min <= 0 <= max] and the
    midpoint [(min + max) / 2] otherwise; the value written depends on the
    bounds only, not on the joint nor on the previous content. *)
Theorem getVariableDefaultValues_policy :
  forall (j : RevoluteJointModel) (v : R) (rest : list R)
         (b : VariableBounds) (brest : Bounds),
    (min_position_ b <= 0 <= max_position_ b ->
     getVariableDefaultValues j (v :: rest) (b :: brest) = Some (0 :: rest))
    /\ (~ (min_position_ b <= 0 <= max_position_ b) ->
        getVariableDefaultValues j (v :: rest) (b :: brest)
        = Some ((min_position_ b + max_position_ b) / 2 :: rest))
    /\ (forall (j' : RevoluteJointModel) (v' : R) (brest' : Bounds),
        getVariableDefaultValues j' (v' :: rest) (b :: brest')
        = getVariableDefaultValues j (v :: rest) (b :: brest)).
Proof.
  intros j v rest b brest; unfold getVariableDefaultValues; simpl.
  repeat split; intros; cmp; simpl; try reflexivity; lra.
Qed.

Lemma getVariableDefaultValues_policy_witness :
  getVariableDefaultValues bounded_z [7] [mkVariableBounds (-1) 2 true]
  = Some [0]
  /\ getVariableDefaultValues bounded_z [7] [mkVariableBounds 1 2 true]
     = Some [(1 + 2) / 2].
Proof.
  split.
  - apply (getVariableDefaultValues_policy bounded_z 7 []
             (mkVariableBounds (-1) 2 true) []); simpl; lra.
  - apply (getVariableDefaultValues_policy bounded_z 7 []
             (mkVariableBounds 1 2 true) []); simpl; lra.
Defined.

(** ** Bounds *)

(** C6: a continuous joint satisfies its bounds for every input and every
    margin; a bounded joint does exactly when the value lies in
    [[min - margin, max + margin]]. *)
Theorem satisfiesBounds_spec :
  forall (j : RevoluteJointModel) (v : R) (rest : list R)
         (b : VariableBounds) (brest : Bounds) (margin : R),
    (continuous_ j = true ->
     forall (values : list R) (bounds : Bounds),
       satisfiesBounds j values bounds margin = Some true)
    /\ (continuous_ j = false ->
        exists r : bool,
          satisfiesBounds j (v :: rest) (b :: brest) margin = Some r
          /\ (r = true <->
              min_position_ b - margin <= v <= max_position_ b + margin)).
Proof.
  intros j v rest b brest margin; unfold satisfiesBounds; split; intros Hc;
    rewrite Hc.
  - reflexivity.
  - simpl. cmp; simpl; eexists; (split; [reflexivity |]);
      split; intros; try easy; lra.
Qed.

Lemma satisfiesBounds_spec_witness :
  (forall (values : list R) (bounds : Bounds),
      satisfiesBounds continuous_z values bounds (1 / 10) = Some true)
  /\ (exists r : bool,
         satisfiesBounds bounded_z [2] [mkVariableBounds 0 1 true] (1 / 10)
         = Some r
         /\ (r = true <-> 0 - 1 / 10 <= 2 <= 1 + 1 / 10)).
Proof.
  split.
  - apply (satisfiesBounds_spec continuous_z 2 []
             (mkVariableBounds 0 1 true) [] (1 / 10)); reflexivity.
  - apply (satisfiesBounds_spec bounded_z 2 []
             (mkVariableBounds 0 1 true) [] (1 / 10)); reflexivity.
Defined.

(** C7: on a bounded joint with [min <= max], [enforceBounds] moves a value
    below [min] to [min], a value above [max] to [max], and leaves a value of
    [[min, max]] as it is. *)
Theorem enforceBounds_bounded_clamps :
  forall (j : RevoluteJointModel) (v : R) (rest : list R)
         (b : VariableBounds) (brest : Bounds),
    continuous_ j = false ->
    min_position_ b <= max_position_ b ->
    (v < min_position_ b ->
     enforceBounds j (v :: rest) (b :: brest)
     = Some (min_position_ b :: rest))
    /\ (v > max_position_ b ->
        enforceBounds j (v :: rest) (b :: brest)
        = Some (max_position_ b :: rest))
    /\ (min_position_ b <= v <= max_position_ b ->
        enforceBounds j (v :: rest) (b :: brest) = Some (v :: rest)).
Proof.
  intros j v rest b brest Hc Hmm; unfold enforceBounds; rewrite Hc; simpl.
  repeat split; intros; cmp; simpl; try reflexivity; lra.
Qed.

Lemma enforceBounds_bounded_clamps_witness :
  enforceBounds bounded_z [-1; 5] [mkVariableBounds 0 1 true] = Some [0; 5]
  /\ enforceBounds bounded_z [2; 5] [mkVariableBounds 0 1 true] = Some [1; 5]
  /\ enforceBounds bounded_z [1 / 2; 5] [mkVariableBounds 0 1 true]
     = Some [1 / 2; 5].
Proof.
  split; [| split].
  - apply (enforceBounds_bounded_clamps bounded_z (-1) [5]
             (mkVariableBounds 0 1 true) []);
      [reflexivity | simpl; lra | simpl; lra].
  - apply (enforceBounds_bounded_clamps bounded_z 2 [5]
             (mkVariableBounds 0 1 true) []);
      [reflexivity | simpl; lra | simpl; lra].
  - apply (enforceBounds_bounded_clamps bounded_z (1 / 2) [5]
             (mkVariableBounds 0 1 true) []);
      [reflexivity | simpl; lra | simpl; lra].
Defined.

(** ** Distance *)

(** C5: in either mode [distance] is symmetric; on a continuous joint with
    both values in [(-PI, PI]] it lies in [[0, PI]]. *)
Theorem distance_symmetric_bounded :
  forall (j : RevoluteJointModel) (a b : R) (ra rb : list R),
    (exists d : R,
        distance j (a :: ra) (b :: rb) = Some d
        /\ distance j (b :: rb) (a :: ra) = Some d)
    /\ (continuous_ j = true ->
        - PI < a <= PI -> - PI < b <= PI ->
        exists d : R,
          distance j (a :: ra) (b :: rb) = Some d /\ 0 <= d <= PI).
Proof.
  intros j a b ra rb; unfold distance, fabs; simpl; split.
  - rewrite (Rabs_minus_sym b a).
    destruct (continuous_ j); eexists; split; reflexivity.
  - intros Hc Ha Hb; rewrite Hc.
    eexists; split; [reflexivity |].
    pose proof (Rabs_pos (a - b)) as Hpos.
    assert (Rabs (a - b) < 2 * PI)
      by (apply Rabs_def1; lra).
    cmp; lra.
Qed.

Lemma distance_symmetric_bounded_witness :
  exists d : R, distance continuous_z [3] [-3] = Some d /\ 0 <= d <= PI.
Proof.
  pose proof PI_gt_3 as Hpi.
  apply (distance_symmetric_bounded continuous_z 3 (-3) [] []);
    [reflexivity | lra | lra].
Defined.

(** ** Interpolation *)

(** Splits every absolute value of the context and the goal by sign. *)
Ltac split_abs :=
  unfold fabs in *; unfold Rabs in *;
  repeat match goal with
  | H : context [Rcase_abs ?x] |- _ => destruct (Rcase_abs x)
  | |- context [Rcase_abs ?x] => destruct (Rcase_abs x)
  end.

(** C3: on a continuous joint, from 3 to -3 the raw difference has magnitude
    6, above PI; the value at [t = 1/2] is PI, the midpoint of the short arc
    through the boundary, and PI lies in [(-PI, PI]]. *)
Theorem interpolate_across_boundary_midpoint :
  forall (j : RevoluteJointModel) (s : R) (rest : list R),
    continuous_ j = true ->
    fabs (- 3 - 3) > PI
    /\ interpolate j [3] [- 3] (1 / 2) (s :: rest) = Some (PI :: rest)
    /\ - PI < PI <= PI.
Proof.
  intros j s rest Hc.
  pose proof PI_4 as H4. pose proof PI_gt_3 as H3.
  assert (Habs : fabs (- 3 - 3) = 6) by (split_abs; lra).
  split; [rewrite Habs; lra | split; [| lra]].
  unfold interpolate; rewrite Hc; simpl. rewrite Habs.
  cmp; simpl; try lra; f_equal; f_equal; lra.
Qed.

Lemma interpolate_across_boundary_midpoint_witness :
  fabs (- 3 - 3) > PI
  /\ interpolate continuous_z [3] [- 3] (1 / 2) [0] = Some [PI]
  /\ - PI < PI <= PI.
Proof.
  apply (interpolate_across_boundary_midpoint continuous_z 0 []).
  reflexivity.
Defined.

(** C2, as the code has it: [t = 0] gives [from] in both modes.  [t = 1]
    gives [to] on a bounded joint, and on a continuous joint with both ends
    in [[-PI, PI]] whenever the raw difference is at most PI in magnitude or
    [to] is strictly inside [(-PI, PI)].  In the remaining case, the long way
    round to the end [to = PI] or [to = -PI], the result is the opposite end
    [-to], the same angle. *)
Theorem interpolate_endpoints :
  forall (j : RevoluteJointModel) (from to : R) (rf rt : list R)
         (s : R) (rs : list R),
    (continuous_ j = false ->
     interpolate j (from :: rf) (to :: rt) 0 (s :: rs) = Some (from :: rs)
     /\ interpolate j (from :: rf) (to :: rt) 1 (s :: rs) = Some (to :: rs))
    /\ (continuous_ j = true ->
        - PI <= from <= PI -> - PI <= to <= PI ->
        interpolate j (from :: rf) (to :: rt) 0 (s :: rs) = Some (from :: rs)
        /\ (fabs (to - from) <= PI \/ - PI < to < PI ->
            interpolate j (from :: rf) (to :: rt) 1 (s :: rs)
            = Some (to :: rs))
        /\ (fabs (to - from) > PI -> to = PI \/ to = - PI ->
            interpolate j (from :: rf) (to :: rt) 1 (s :: rs)
            = Some (- to :: rs))).
Proof.
  intros j from to rf rt s rs; unfold interpolate; simpl; split.
  - intros Hc; rewrite Hc; simpl; split; f_equal; f_equal; lra.
  - intros Hc Hf Ht; rewrite Hc; pose proof PI_RGT_0 as Hpi.
    split; [| split].
    + cmp; simpl; f_equal; f_equal; lra.
    + intros H. cmp; simpl; f_equal; f_equal; try lra;
        destruct H as [H | H]; try lra.
    + intros H1 H2. cmp; simpl; f_equal; f_equal; try lra;
        split_abs; lra.
Qed.

Lemma interpolate_endpoints_witness :
  (interpolate bounded_z [1] [2] 0 [0] = Some [1]
   /\ interpolate bounded_z [1] [2] 1 [0] = Some [2])
  /\ interpolate continuous_z [3] [- 3] 0 [0] = Some [3]
  /\ interpolate continuous_z [3] [- 3] 1 [0] = Some [- 3]
  /\ interpolate continuous_z [- 1] [PI] 1 [0] = Some [- PI].
Proof.
  pose proof PI_gt_3 as H3.
  split; [| split; [| split]].
  - apply (interpolate_endpoints bounded_z 1 2 [] [] 0 []); reflexivity.
  - apply (interpolate_endpoints continuous_z 3 (- 3) [] [] 0 []);
      [reflexivity | lra | lra].
  - apply (interpolate_endpoints continuous_z 3 (- 3) [] [] 0 []);
      [reflexivity | lra | lra | right; lra].
  - apply (interpolate_endpoints continuous_z (- 1) PI [] [] 0 []);
      [reflexivity | lra | lra | split_abs; lra | left; reflexivity].
Defined.

(** C2 as stated fails: on a continuous joint, from -1 to PI the raw
    difference exceeds PI, the complementary arc is taken and the value at
    [t = 1] is -PI, which none of the two corrections moves. *)
Lemma interpolate_end_counterexample :
  - PI <= - 1 <= PI /\ - PI <= PI <= PI
  /\ interpolate continuous_z [- 1] [PI] 1 [0] = Some [- PI]
  /\ interpolate continuous_z [- 1] [PI] 1 [0] <> Some [PI].
Proof.
  pose proof PI_gt_3 as H3.
  assert (Hv : interpolate continuous_z [- 1] [PI] 1 [0] = Some [- PI]).
  { unfold interpolate; simpl.
    cmp; simpl; f_equal; f_equal; try lra; split_abs; lra. }
  repeat split; try lra; try exact Hv.
  rewrite Hv; intros Heq; injection Heq; lra.
Qed.

(** ** Normalisation of a continuous joint *)

Lemma trunc_nonneg (x : R) :
  0 <= x -> IZR (trunc x) <= x < IZR (trunc x) + 1.
Proof.
  intros Hx; unfold trunc; destruct (Rle_dec 0 x) as [_ | Hn]; [| lra].
  destruct (base_Int_part x); lra.
Qed.

Lemma trunc_neg (x : R) :
  x < 0 -> IZR (trunc x) - 1 < x <= IZR (trunc x).
Proof.
  intros Hx; unfold trunc; destruct (Rle_dec 0 x) as [Hn | _]; [lra |].
  rewrite opp_IZR; destruct (base_Int_part (- x)); lra.
Qed.

(** The quotient of a half-integer below zero rounds up to the integer. *)
Lemma trunc_neg_half (k : Z) :
  (0 <= k)%Z -> trunc (- (IZR k + 1 / 2)) = (- k)%Z.
Proof.
  intros Hk; apply IZR_le in Hk.
  unfold trunc; destruct (Rle_dec 0 (- (IZR k + 1 / 2))) as [Hn | _]; [lra |].
  f_equal; symmetry; apply Int_part_spec; lra.
Qed.

Lemma quotient_neg (x y : R) : x < 0 -> 0 < y -> x / y < 0.
Proof.
  intros Hx Hy; pose proof (Rinv_0_lt_compat y Hy) as Hi.
  unfold Rdiv; nra.
Qed.

(** [fmod] by a positive modulus keeps the sign of its first argument and
    stays below the modulus in magnitude. *)
Lemma fmod_range (x y : R) :
  0 < y ->
  (0 <= x -> 0 <= fmod x y < y) /\ (x < 0 -> - y < fmod x y <= 0).
Proof.
  intros Hy; unfold fmod.
  assert (Hq : x = x / y * y) by (field; lra).
  split; intros Hx.
  - assert (H0 : 0 <= x / y)
      by (apply Rmult_le_pos; [lra | left; apply Rinv_0_lt_compat; lra]).
    pose proof (trunc_nonneg _ H0) as [Hlo Hhi].
    rewrite Hq at 1 3; nra.
  - assert (H0 : x / y < 0) by (apply quotient_neg; lra).
    pose proof (trunc_neg _ H0) as [Hlo Hhi].
    rewrite Hq at 1 3; nra.
Qed.

Lemma fmod_congruent (x y : R) :
  fmod x y = x + IZR (- trunc (x / y)) * y.
Proof. unfold fmod; rewrite opp_IZR; ring. Qed.

(** C1, as the code has it: on a continuous joint [enforceBounds] yields a
    value of the closed interval [[-PI, PI]] that differs from the input by a
    whole number of turns.  The value is -PI, outside [(-PI, PI]], exactly
    when the input is a negative odd multiple of PI (-PI, -3 PI, ...), the
    inputs whose [fmod] by [2 PI] is -PI. *)
Theorem enforceBounds_continuous_normalizes :
  forall (j : RevoluteJointModel) (v : R) (rest : list R) (bounds : Bounds),
    continuous_ j = true ->
    exists r : R,
      enforceBounds j (v :: rest) bounds = Some (r :: rest)
      /\ - PI <= r <= PI
      /\ (exists k : Z, r = v + IZR k * (2 * PI))
      /\ (r = - PI <->
          exists n : Z, (0 <= n)%Z /\ v = - (2 * IZR n + 1) * PI).
Proof.
  intros j v rest bounds Hc; pose proof PI_RGT_0 as Hpi.
  unfold enforceBounds; rewrite Hc; simpl.
  assert (H2pi : 0 < 2 * PI) by lra.
  destruct (fmod_range v (2 * PI) H2pi) as [Hpos Hneg].
  pose proof (fmod_congruent v (2 * PI)) as Hk.
  assert (Hodd : forall n : Z, (0 <= n)%Z -> v = - (2 * IZR n + 1) * PI ->
                 fmod v (2 * PI) = - PI).
  { intros n Hn Hv. unfold fmod.
    replace (v / (2 * PI)) with (- (IZR n + 1 / 2)) by (rewrite Hv; field; lra).
    rewrite (trunc_neg_half n Hn), opp_IZR, Hv; ring. }
  assert (Hback : fmod v (2 * PI) = - PI ->
                  exists n : Z, (0 <= n)%Z /\ v = - (2 * IZR n + 1) * PI).
  { intros Hf.
    assert (Hv : v < 0) by (destruct (Rle_or_lt 0 v) as [H | H];
                            [specialize (Hpos H); lra | exact H]).
    assert (Hq : v / (2 * PI) < 0) by (apply quotient_neg; lra).
    pose proof (trunc_neg _ Hq) as [Hlo _].
    exists (- trunc (v / (2 * PI)))%Z; split.
    - assert (trunc (v / (2 * PI)) < 1)%Z by (apply lt_IZR; lra). lia.
    - rewrite opp_IZR; unfold fmod in Hf; lra. }
  destruct (Rle_or_lt 0 v) as [Hv | Hv];
    [specialize (Hpos Hv); clear Hneg | specialize (Hneg Hv); clear Hpos].
  - cmp; simpl; try lra; eexists; (split; [reflexivity |]);
      (split; [lra |]); (split; [|
        split; [intros Hr; apply Hback; lra
               | intros [n [Hn Hvn]]; specialize (Hodd n Hn Hvn); lra]]).
    + exists (- trunc (v / (2 * PI)) - 1)%Z.
      rewrite minus_IZR, Hk; ring.
    + exists (- trunc (v / (2 * PI)))%Z. exact Hk.
  - cmp; simpl; try lra; eexists; (split; [reflexivity |]);
      (split; [lra |]); (split; [|
        split; [intros Hr; apply Hback; lra
               | intros [n [Hn Hvn]]; specialize (Hodd n Hn Hvn); lra]]).
    + exists (- trunc (v / (2 * PI)) + 1)%Z.
      rewrite plus_IZR, Hk; ring.
    + exists (- trunc (v / (2 * PI)))%Z. exact Hk.
Qed.

(** ** Forward transform and its inverse *)

Import Eigen.

(** The matrix of an angle about a unit axis is a proper rotation. *)
Lemma toRotationMatrix_isRotation (v : R) (a : Vector3d) :
  isUnit a -> isRotation (toRotationMatrix v a).
Proof.
  unfold isUnit, isRotation, mul, transpose, determinant, Identity,
    toRotationMatrix.
  destruct a as [ax ay az]; simpl.
  pose proof (sin2_cos2 v) as Hsc; unfold Rsqr in Hsc; revert Hsc.
  generalize (sin v) (cos v); intros s c Hsc Hu.
  split; [f_equal |]; nsatz.
Qed.

Lemma trace_toRotationMatrix (v : R) (a : Vector3d) :
  isUnit a -> trace (toRotationMatrix v a) = 1 + 2 * cos v.
Proof.
  unfold isUnit, trace, toRotationMatrix; simpl; intros Hu.
  transitivity ((1 - cos v) * (vx a * vx a + vy a * vy a + vz a * vz a)
                + 3 * cos v); [ring | rewrite Hu; ring].
Qed.

(** With a positive trace the quaternion read from the matrix is of norm 1
    and has the non-negative scalar part [sqrt (2 + 2 cos v) / 2]. *)
Lemma quaternion_positive_trace (v : R) (a : Vector3d) :
  isUnit a -> 0 < 1 + 2 * cos v ->
  squaredNorm (Quaterniond_of_Matrix3d (toRotationMatrix v a)) = 1
  /\ qw (Quaterniond_of_Matrix3d (toRotationMatrix v a))
     = sqrt (2 + 2 * cos v) / 2.
Proof.
  intros Hu Ht.
  unfold Quaterniond_of_Matrix3d.
  rewrite (trace_toRotationMatrix v a Hu).
  destruct (Rgtb (1 + 2 * cos v) 0) eqn:E; [| apply Rgtb_false in E; lra].
  unfold squaredNorm; simpl.
  replace (1 + 2 * cos v + 1) with (2 + 2 * cos v) by ring.
  pose proof (sin2_cos2 v) as Hsc; unfold Rsqr in Hsc.
  assert (Hpos : 0 < 2 + 2 * cos v) by lra.
  pose proof (sqrt_lt_R0 _ Hpos) as Ht0.
  pose proof (sqrt_sqrt (2 + 2 * cos v) (Rlt_le _ _ Hpos)) as Htt.
  remember (sqrt (2 + 2 * cos v)) as t eqn:Hdef.
  unfold isUnit in Hu; destruct a as [ax ay az]; simpl in *.
  split; [| field].
  transitivity (sin v * sin v * (ax * ax + ay * ay + az * az) / (t * t)
                + t * t / 4);
    [field; lra |].
  rewrite Hu, Htt.
  replace (sin v * sin v) with ((1 - cos v) * (1 + cos v)) by lra.
  field; lra.
Qed.

(** The algebra common to the three cases of the other branch: [p] is the
    axis component of the largest diagonal entry, [q] and [r] are the other
    two, in cyclic order. *)
Lemma leading_diagonal (s c p q r t : R) :
  s * s + c * c = 1 -> p * p + q * q + r * r = 1 ->
  c <= - 1 / 2 -> q * q <= p * p -> r * r <= p * p ->
  t = sqrt ((1 - c) * p * p + c - ((1 - c) * q * q + c)
            - ((1 - c) * r * r + c) + 1) ->
  0 < t /\ t * t = 2 * (p * p) * (1 - c) /\ p <> 0.
Proof.
  intros Hsc Hu Hc Hq Hr Ht.
  assert (Hp : 1 / 3 <= p * p) by lra.
  assert (HD : (1 - c) * p * p + c - ((1 - c) * q * q + c)
               - ((1 - c) * r * r + c) + 1 = 2 * (p * p) * (1 - c)).
  { transitivity ((1 - c) * (p * p - q * q - r * r)
                  + (1 - c) * (p * p + q * q + r * r));
      [rewrite Hu; ring | ring]. }
  rewrite HD in Ht.
  assert (Hpos : 0 < 2 * (p * p) * (1 - c)) by nra.
  repeat split.
  - rewrite Ht; apply sqrt_lt_R0; exact Hpos.
  - rewrite Ht; apply sqrt_sqrt; lra.
  - intros H0; rewrite H0 in Hp; lra.
Qed.

Ltac leading v p q r Hsc Hu :=
  match goal with
  | |- context [sqrt ?D] =>
      let t := fresh "t" in
      let Ht0 := fresh "Ht0" in
      let Htpos := fresh "Htpos" in
      let Htt := fresh "Htt" in
      let Hp0 := fresh "Hp0" in
      remember (sqrt D) as t eqn:Ht0;
      destruct (leading_diagonal (sin v) (cos v) p q r t)
        as (Htpos & Htt & Hp0);
      [exact Hsc | lra | lra | nra | nra | exact Ht0 |];
      split;
      [ transitivity
          (((1 - cos v) * (1 - cos v) * (p * p) * (q * q + r * r)
            + sin v * sin v * (p * p)) / (t * t) + t * t / 4);
        [field; lra |];
        rewrite Htt;
        replace (q * q + r * r) with (1 - p * p) by lra;
        replace (sin v * sin v) with ((1 - cos v) * (1 + cos v)) by lra;
        field; split; lra
      | transitivity (sin v * sin v * (p * p) / (t * t)); [field; lra |];
        rewrite Htt;
        replace (sin v * sin v) with ((1 - cos v) * (1 + cos v)) by lra;
        field; split; lra ]
  end.

(** Without a positive trace the quaternion is of norm 1 as well, and the
    square of its scalar part is [(1 + cos v) / 2]; its sign is that of
    [sin v] times the leading axis component. *)
Lemma quaternion_other_trace (v : R) (a : Vector3d) :
  isUnit a -> 1 + 2 * cos v <= 0 ->
  squaredNorm (Quaterniond_of_Matrix3d (toRotationMatrix v a)) = 1
  /\ qw (Quaterniond_of_Matrix3d (toRotationMatrix v a))
     * qw (Quaterniond_of_Matrix3d (toRotationMatrix v a))
     = (1 + cos v) / 2.
Proof.
  intros Hu Ht.
  unfold Quaterniond_of_Matrix3d; cbv zeta.
  rewrite (trace_toRotationMatrix v a Hu).
  destruct (Rgtb (1 + 2 * cos v) 0) eqn:E;
    [apply Rgtb_true in E; lra | clear E].
  pose proof (sin2_cos2 v) as Hsc; unfold Rsqr in Hsc.
  unfold isUnit in Hu.
  set (M := toRotationMatrix v a).
  assert (Hc1 : 0 < 1 - cos v) by lra.
  destruct (Rgtb (coeff M 1 1) (coeff M 0 0)) eqn:E1; cbv iota;
    [apply Rgtb_true in E1 | apply Rgtb_false in E1];
    (destruct (Rgtb (coeff M 2 2) _) eqn:E2; cbv iota;
     [apply Rgtb_true in E2 | apply Rgtb_false in E2]);
    subst M; destruct a as [ax ay az]; unfold squaredNorm; simpl in *.
  - leading v az ax ay Hsc Hu.
  - leading v ay az ax Hsc Hu.
  - leading v az ax ay Hsc Hu.
  - leading v ax ay az Hsc Hu.
Qed.

Lemma acos_negative (x : R) : x < 0 -> PI / 2 < acos x.
Proof.
  intros Hx; pose proof PI_RGT_0 as Hpi.
  unfold acos; repeat case Rle_dec; intros; try lra.
  assert (Hs : 0 < sqrt (1 - x²))
    by (apply sqrt_lt_R0; unfold Rsqr; nra).
  pose proof (quotient_neg x _ Hx Hs) as Hq.
  pose proof (atan_increasing _ _ Hq) as Ha; rewrite atan_0 in Ha; lra.
Qed.

(** Half of an angle of [[-PI, PI]], taken in magnitude. *)
Lemma half_angle (v : R) :
  Rabs v <= PI ->
  0 <= Rabs v / 2 <= PI
  /\ 0 <= cos (Rabs v / 2)
  /\ cos (Rabs v / 2) * cos (Rabs v / 2) = (1 + cos v) / 2.
Proof.
  intros Hv; pose proof PI_RGT_0 as Hpi; pose proof (Rabs_pos v) as Hp.
  split; [lra | split].
  - apply cos_ge_0; lra.
  - assert (Hc : cos v = cos (2 * (Rabs v / 2))).
    { replace (2 * (Rabs v / 2)) with (Rabs v) by field.
      unfold Rabs; destruct (Rcase_abs v); [rewrite cos_neg |]; reflexivity. }
    rewrite Hc, cos_2a_cos; field.
Qed.

Lemma cos_below_two_thirds (v : R) :
  Rabs v <= PI -> Rabs v < 2 * (PI / 3) -> 0 < 1 + 2 * cos v.
Proof.
  intros Hv Hlt; pose proof PI_RGT_0 as Hpi; pose proof (Rabs_pos v) as Hp.
  assert (Hc : cos v = cos (Rabs v))
    by (unfold Rabs; destruct (Rcase_abs v); [rewrite cos_neg |]; reflexivity).
  assert (Hd : cos (2 * (PI / 3)) < cos (Rabs v))
    by (apply cos_decreasing_1; lra).
  rewrite cos_2PI3 in Hd; lra.
Qed.

(** The value the inverse reads from the forward transform of [v]: the
    magnitude [|v|] or its complement to a full turn, and the magnitude
    whenever [|v| < 2 PI / 3]. *)
Lemma roundtrip_value (v : R) (a : Vector3d) :
  isUnit a -> Rabs v <= PI ->
  (acos (qw (normalize (Quaterniond_of_Matrix3d (toRotationMatrix v a)))) * 2
   = Rabs v
   \/ acos (qw (normalize (Quaterniond_of_Matrix3d (toRotationMatrix v a)))) * 2
      = 2 * PI - Rabs v)
  /\ (Rabs v < 2 * (PI / 3) ->
      acos (qw (normalize (Quaterniond_of_Matrix3d (toRotationMatrix v a)))) * 2
      = Rabs v).
Proof.
  intros Hu Hv.
  destruct (half_angle v Hv) as (Hh & Hc0 & Hcc).
  pose proof (acos_cos _ Hh) as Hacos.
  unfold normalize, norm; cbn [qw].
  destruct (Rlt_le_dec 0 (1 + 2 * cos v)) as [Hpos | Hneg].
  - destruct (quaternion_positive_trace v a Hu Hpos) as [Hn Hw].
    rewrite Hn, sqrt_1, Hw.
    assert (Hs : sqrt (2 + 2 * cos v) = 2 * cos (Rabs v / 2))
      by (apply sqrt_lem_1; nra).
    rewrite Hs.
    replace (2 * cos (Rabs v / 2) / 2 / 1) with (cos (Rabs v / 2)) by field.
    rewrite Hacos; split; [left |]; intros; field.
  - destruct (quaternion_other_trace v a Hu Hneg) as [Hn Hw].
    rewrite Hn, sqrt_1.
    set (w := qw (Quaterniond_of_Matrix3d (toRotationMatrix v a))) in *.
    replace (w / 1) with w by field.
    split.
    + assert (Hcase : w = cos (Rabs v / 2) \/ w = - cos (Rabs v / 2)).
      { assert (Hz : (w - cos (Rabs v / 2)) * (w + cos (Rabs v / 2)) = 0)
          by nra.
        apply Rmult_integral in Hz; destruct Hz; [left | right]; lra. }
      destruct Hcase as [Hw1 | Hw1]; rewrite Hw1.
      * left; rewrite Hacos; field.
      * right; rewrite acos_opp, Hacos; field.
    + intros Hlt; pose proof (cos_below_two_thirds v Hv Hlt); lra.
Qed.

(** About the z axis, a negative sine with a trace that is not positive
    gives a negative scalar part. *)
Lemma scalar_part_negative_about_z (v : R) :
  1 + 2 * cos v <= 0 -> sin v < 0 ->
  qw (Quaterniond_of_Matrix3d (toRotationMatrix v (mkVector3d 0 0 1))) < 0.
Proof.
  intros Hc Hs.
  unfold Quaterniond_of_Matrix3d; cbv zeta.
  rewrite trace_toRotationMatrix by (unfold isUnit; simpl; ring).
  destruct (Rgtb (1 + 2 * cos v) 0) eqn:E;
    [apply Rgtb_true in E; lra | clear E].
  set (M := toRotationMatrix v (mkVector3d 0 0 1)).
  destruct (Rgtb (coeff M 1 1) (coeff M 0 0)) eqn:E1; cbv iota;
    [apply Rgtb_true in E1; subst M; simpl in E1; lra | clear E1].
  destruct (Rgtb (coeff M 2 2) (coeff M 0 0)) eqn:E2; cbv iota;
    [clear E2 | apply Rgtb_false in E2; subst M; simpl in E2; lra].
  subst M; simpl.
  match goal with
  | |- context [sqrt ?D] =>
      assert (Ht : 0 < sqrt D) by (apply sqrt_lt_R0; lra);
      remember (sqrt D) as t
  end.
  assert (Hi : 0 < 1 / 2 / t)
    by (unfold Rdiv; apply Rmult_lt_0_compat;
        [lra | apply Rinv_0_lt_compat; exact Ht]).
  nra.
Qed.

(** C4, as the code has it: for a joint with a unit axis and [|v| <= PI] the
    inverse of the forward transform returns [|v|] or [2 PI - |v|], and it
    returns [|v|] whenever [|v| < 2 PI / 3]; there the sign is lost, a
    negative [v] coming back as [-v]. *)
Theorem computeVariableValues_computeTransform :
  forall (j : RevoluteJointModel) (v : R) (rest : list R)
         (out : R) (orest : list R),
    isUnit (axis_ j) -> Rabs v <= PI ->
    exists (T : Affine3d) (r : R),
      computeTransform j (v :: rest) = Some T
      /\ computeVariableValues j T (out :: orest) = Some (r :: orest)
      /\ (r = Rabs v \/ r = 2 * PI - Rabs v)
      /\ (Rabs v < 2 * (PI / 3) -> r = Rabs v)
      /\ (- (2 * (PI / 3)) < v < 0 -> r = - v /\ r <> v).
Proof.
  intros j v rest out orest Hu Hv.
  destruct (roundtrip_value v (axis_ j) Hu Hv) as [Hd Hs].
  eexists; eexists; split; [reflexivity |].
  split; [reflexivity |].
  unfold rotation, Affine3d_of_AngleAxisd; cbn [linear].
  split; [exact Hd | split; [exact Hs |]].
  intros Hneg.
  assert (Ha : Rabs v = - v) by (apply Rabs_left; lra).
  rewrite Hs by (rewrite Ha; lra).
  rewrite Ha; split; lra.
Qed.

Lemma computeVariableValues_computeTransform_witness :
  exists (T : Affine3d) (r : R),
    computeTransform bounded_z [- 1] = Some T
    /\ computeVariableValues bounded_z T [0] = Some [r]
    /\ (r = Rabs (- 1) \/ r = 2 * PI - Rabs (- 1))
    /\ (Rabs (- 1) < 2 * (PI / 3) -> r = Rabs (- 1))
    /\ (- (2 * (PI / 3)) < - 1 < 0 -> r = - - 1 /\ r <> - 1).
Proof.
  pose proof PI_gt_3 as H3.
  apply (computeVariableValues_computeTransform bounded_z (- 1) [] 0 []).
  - unfold isUnit; simpl; ring.
  - split_abs; lra.
Defined.

(** C4 as stated fails: about the z axis the value -3, of magnitude below
    PI, comes back as [2 PI - 3], which is above PI and is not 3. *)
Lemma computeVariableValues_magnitude_counterexample :
  isUnit (axis_ bounded_z) /\ Rabs (- 3) <= PI
  /\ exists T : Affine3d,
       computeTransform bounded_z [- 3] = Some T
       /\ computeVariableValues bounded_z T [0] = Some [2 * PI - 3]
       /\ 2 * PI - 3 <> Rabs (- 3)
       /\ PI < 2 * PI - 3.
Proof.
  pose proof PI_gt_3 as H3; pose proof PI_4 as H4.
  assert (Ha : Rabs (- 3) = 3) by (split_abs; lra).
  assert (Hu : isUnit (axis_ bounded_z)) by (unfold isUnit; simpl; ring).
  assert (Hv : Rabs (- 3) <= PI) by lra.
  split; [exact Hu | split; [exact Hv |]].
  eexists; split; [reflexivity |].
  unfold computeVariableValues, rotation, Affine3d_of_AngleAxisd;
    cbn [linear set0 axis_ bounded_z].
  destruct (roundtrip_value (- 3) (mkVector3d 0 0 1) Hu Hv) as [Hd _].
  assert (Hc : 1 + 2 * cos (- 3) <= 0).
  { change (IZR (- 3)) with (- IZR 3); rewrite cos_neg.
    assert (Hd' : cos 3 < cos (2 * (PI / 3)))
      by (apply cos_decreasing_1; lra).
    rewrite cos_2PI3 in Hd'; lra. }
  assert (Hs : sin (- 3) < 0) by (apply sin_lt_0_var; lra).
  pose proof (scalar_part_negative_about_z (- 3) Hc Hs) as Hw.
  destruct (quaternion_other_trace (- 3) (mkVector3d 0 0 1) Hu Hc) as [Hn _].
  assert (Hwn : qw (normalize (Quaterniond_of_Matrix3d
                                 (toRotationMatrix (- 3) (mkVector3d 0 0 1))))
                < 0).
  { unfold normalize, norm; cbn [qw]; rewrite Hn, sqrt_1; lra. }
  pose proof (acos_negative _ Hwn) as Hacos.
  rewrite Ha in Hd.
  split; [| split; lra].
  do 2 f_equal. destruct Hd as [Hd | Hd]; lra.
Qed.

(** ** Normalisation at the boundary *)

Lemma fmod_minus_PI : fmod (- PI) (2 * PI) = - PI.
Proof.
  pose proof PI_RGT_0 as Hpi; unfold fmod.
  replace (- PI / (2 * PI)) with (- (IZR 0 + 1 / 2)) by (field; lra).
  rewrite trunc_neg_half by lia; simpl; ring.
Qed.

Lemma enforceBounds_continuous_normalizes_witness :
  exists r : R,
    enforceBounds continuous_z [7] [unbounded_pi] = Some [r]
    /\ - PI <= r <= PI
    /\ (exists k : Z, r = 7 + IZR k * (2 * PI))
    /\ (r = - PI <-> exists n : Z, (0 <= n)%Z /\ 7 = - (2 * IZR n + 1) * PI).
Proof.
  apply (enforceBounds_continuous_normalizes continuous_z 7 [] [unbounded_pi]).
  reflexivity.
Defined.

(** C1 as stated fails at [v = -PI]: [fmod] leaves -PI, neither correction
    applies, and -PI is not in the half-open interval [(-PI, PI]]. *)
Lemma enforceBounds_minus_PI_counterexample :
  enforceBounds continuous_z [- PI] [unbounded_pi] = Some [- PI]
  /\ ~ (- PI < - PI <= PI).
Proof.
  pose proof PI_RGT_0 as Hpi; split; [| lra].
  unfold enforceBounds; simpl; rewrite fmod_minus_PI.
  cmp; simpl; try lra; reflexivity.
Qed.

(** ** Dense setter of the kinematic state *)

Import KinematicState.

(** When the count is right and is the sum of the joints' dimensions, the
    setter stores the vector: the dense getter returns it. *)
Lemma assignValues_getStateValues (js : list JointState) (vals : list R) :
  List.length vals = List.length (flat_map joint_state_values_ js) ->
  flat_map joint_state_values_ (assignValues js vals) = vals.
Proof.
  revert vals; induction js as [| j js IH]; intros vals Hlen; simpl in *.
  - destruct vals; [reflexivity | discriminate].
  - rewrite length_app in Hlen.
    rewrite IH by (rewrite length_skipn; lia).
    apply firstn_skipn.
Qed.

Lemma setStateValues_right_length
  (ks : KinematicState.t) (joint_state_values : list R) :
  getVariableCount ks = List.length (getStateValues ks) ->
  List.length joint_state_values = getVariableCount ks ->
  fst (setStateValues ks joint_state_values) = true
  /\ getStateValues (snd (setStateValues ks joint_state_values))
     = joint_state_values.
Proof.
  intros Hinv Hlen; unfold setStateValues.
  rewrite (proj2 (Nat.eqb_eq _ _) Hlen); simpl; split; [reflexivity |].
  apply assignValues_getStateValues.
  rewrite Hlen, Hinv; reflexivity.
Qed.

(** C9: called with a vector whose length is not the model's variable
    count, the dense setter returns false and the state, hence every joint
    value, is the one before the call. *)
Theorem setStateValues_wrong_length :
  forall (ks : KinematicState.t) (joint_state_values : list R),
    List.length joint_state_values <> getVariableCount ks ->
    fst (setStateValues ks joint_state_values) = false
    /\ snd (setStateValues ks joint_state_values) = ks
    /\ getStateValues (snd (setStateValues ks joint_state_values))
       = getStateValues ks.
Proof.
  intros ks vals Hlen; unfold setStateValues.
  destruct (Nat.eqb (List.length vals) (getVariableCount ks)) eqn:E.
  - apply Nat.eqb_eq in E; contradiction.
  - repeat split.
Qed.

Lemma setStateValues_wrong_length_witness :
  fst (setStateValues two_joint_state [1; 2; 3]) = false
  /\ snd (setStateValues two_joint_state [1; 2; 3]) = two_joint_state
  /\ getStateValues (snd (setStateValues two_joint_state [1; 2; 3]))
     = getStateValues two_joint_state.
Proof.
  apply (setStateValues_wrong_length two_joint_state [1; 2; 3]).
  simpl; lia.
Defined.

(** * Further properties of the joint operations *)

(** ** Bounds, once enforced *)

Lemma trunc_small (x : R) : - 1 < x < 1 -> trunc x = 0%Z.
Proof.
  intros [Hlo Hhi]; destruct (Rle_or_lt 0 x) as [Hx | Hx].
  - destruct (trunc_nonneg x Hx) as [H1 H2].
    assert (trunc x < 1)%Z by (apply lt_IZR; lra).
    assert (- 1 < trunc x)%Z by (apply lt_IZR; lra).
    lia.
  - destruct (trunc_neg x Hx) as [H1 H2].
    assert (trunc x < 1)%Z by (apply lt_IZR; lra).
    assert (- 1 < trunc x)%Z by (apply lt_IZR; lra).
    lia.
Qed.

Lemma fmod_small (v y : R) : 0 < y -> - y < v < y -> fmod v y = v.
Proof.
  intros Hy Hv; unfold fmod.
  pose proof (Rinv_0_lt_compat y Hy) as Hi.
  assert (Hq : - 1 < v / y < 1).
  { assert (Heq : v = v / y * y) by (field; lra).
    split; apply Rnot_le_lt; intros Hc; nra. }
  rewrite (trunc_small _ Hq); simpl; ring.
Qed.

(** What [enforceBounds] stores on a continuous joint: a value of
    [[-PI, PI]], a whole number of turns away from the input, and the input
    itself when it is in [[-PI, PI]] already. *)
Lemma enforceBounds_continuous_value
  (j : RevoluteJointModel) (v : R) (rest : list R) (bounds : Bounds) :
  continuous_ j = true ->
  exists (r : R) (k : Z),
    enforceBounds j (v :: rest) bounds = Some (r :: rest)
    /\ - PI <= r <= PI
    /\ r = v + IZR k * (2 * PI)
    /\ (- PI <= v <= PI -> r = v).
Proof.
  intros Hc; pose proof PI_RGT_0 as Hpi.
  unfold enforceBounds; rewrite Hc; simpl.
  assert (H2pi : 0 < 2 * PI) by lra.
  destruct (fmod_range v (2 * PI) H2pi) as [Hpos Hneg].
  pose proof (fmod_congruent v (2 * PI)) as Hk.
  assert (Hin : - PI <= v <= PI -> fmod v (2 * PI) = v)
    by (intros Hv; apply fmod_small; lra).
  destruct (Rle_or_lt 0 v) as [Hv | Hv];
    [specialize (Hpos Hv); clear Hneg | specialize (Hneg Hv); clear Hpos];
    cmp; simpl; try lra.
  - exists (fmod v (2 * PI) - 2 * PI), (- trunc (v / (2 * PI)) - 1)%Z.
    split; [reflexivity | split; [lra | split]].
    + rewrite minus_IZR, Hk; ring.
    + intros Hr; specialize (Hin Hr); lra.
  - exists (fmod v (2 * PI)), (- trunc (v / (2 * PI)))%Z.
    split; [reflexivity | split; [lra | split]];
      [exact Hk | intros Hr; exact (Hin Hr)].
  - exists (fmod v (2 * PI) + 2 * PI), (- trunc (v / (2 * PI)) + 1)%Z.
    split; [reflexivity | split; [lra | split]].
    + rewrite plus_IZR, Hk; ring.
    + intros Hr; specialize (Hin Hr); lra.
  - exists (fmod v (2 * PI)), (- trunc (v / (2 * PI)))%Z.
    split; [reflexivity | split; [lra | split]];
      [exact Hk | intros Hr; exact (Hin Hr)].
Qed.

(** X1: on a continuous joint [enforceBounds] leaves a value of
    [[-PI, PI]] as it is, so enforcing twice is enforcing once, whatever the
    input. *)
Theorem enforceBounds_continuous_idempotent :
  forall (j : RevoluteJointModel) (v : R) (rest : list R) (bounds : Bounds),
    continuous_ j = true ->
    (- PI <= v <= PI -> enforceBounds j (v :: rest) bounds = Some (v :: rest))
    /\ exists values' : list R,
         enforceBounds j (v :: rest) bounds = Some values'
         /\ enforceBounds j values' bounds = Some values'.
Proof.
  intros j v rest bounds Hc; split.
  - intros Hv.
    destruct (enforceBounds_continuous_value j v rest bounds Hc)
      as (r & k & He & _ & _ & Hfix).
    rewrite He, (Hfix Hv); reflexivity.
  - destruct (enforceBounds_continuous_value j v rest bounds Hc)
      as (r & k & He & Hr & _ & _).
    exists (r :: rest); split; [exact He |].
    destruct (enforceBounds_continuous_value j r rest bounds Hc)
      as (r' & k' & He' & _ & _ & Hfix).
    rewrite He', (Hfix Hr); reflexivity.
Qed.

Lemma enforceBounds_continuous_idempotent_witness :
  (- PI <= 1 <= PI ->
   enforceBounds continuous_z [1; 5] [unbounded_pi] = Some [1; 5])
  /\ exists values' : list R,
       enforceBounds continuous_z [1; 5] [unbounded_pi] = Some values'
       /\ enforceBounds continuous_z values' [unbounded_pi] = Some values'.
Proof.
  apply (enforceBounds_continuous_idempotent continuous_z 1 [5] [unbounded_pi]).
  reflexivity.
Defined.

(** X2: on a bounded joint with [min <= max], the value [enforceBounds]
    stores satisfies the bounds for every margin that is not negative, and
    enforcing again changes nothing. *)
Theorem enforceBounds_bounded_satisfies :
  forall (j : RevoluteJointModel) (v : R) (rest : list R)
         (b : VariableBounds) (brest : Bounds) (margin : R),
    continuous_ j = false ->
    min_position_ b <= max_position_ b -> 0 <= margin ->
    exists values' : list R,
      enforceBounds j (v :: rest) (b :: brest) = Some values'
      /\ satisfiesBounds j values' (b :: brest) margin = Some true
      /\ enforceBounds j values' (b :: brest) = Some values'.
Proof.
  intros j v rest b brest margin Hc Hmm Hm.
  unfold enforceBounds, satisfiesBounds; rewrite Hc; simpl.
  destruct (Rltb v (min_position_ b)) eqn:E1;
    [apply Rltb_true in E1 | apply Rltb_false in E1];
    [| destruct (Rgtb v (max_position_ b)) eqn:E2;
       [apply Rgtb_true in E2 | apply Rgtb_false in E2]];
    eexists; (split; [reflexivity |]); simpl; cmp; simpl;
    try lra; split; reflexivity.
Qed.

Lemma enforceBounds_bounded_satisfies_witness :
  exists values' : list R,
    enforceBounds bounded_z [7; 5] [mkVariableBounds 0 1 true] = Some values'
    /\ satisfiesBounds bounded_z values' [mkVariableBounds 0 1 true] 0
       = Some true
    /\ enforceBounds bounded_z values' [mkVariableBounds 0 1 true]
       = Some values'.
Proof.
  apply (enforceBounds_bounded_satisfies bounded_z 7 [5]
           (mkVariableBounds 0 1 true) [] 0);
    [reflexivity | simpl; lra | lra].
Defined.

(** X3: with [min <= max], the default value of the bounds satisfies them on
    a bounded joint, for every margin that is not negative. *)
Theorem getVariableDefaultValues_satisfies :
  forall (j : RevoluteJointModel) (v : R) (rest : list R)
         (b : VariableBounds) (brest : Bounds) (margin : R),
    continuous_ j = false ->
    min_position_ b <= max_position_ b -> 0 <= margin ->
    exists values' : list R,
      getVariableDefaultValues j (v :: rest) (b :: brest) = Some values'
      /\ satisfiesBounds j values' (b :: brest) margin = Some true.
Proof.
  intros j v rest b brest margin Hc Hmm Hm.
  unfold getVariableDefaultValues, satisfiesBounds; rewrite Hc; simpl.
  destruct (Rleb (min_position_ b) 0) eqn:E1;
    [apply Rleb_true in E1 | apply Rleb_false in E1];
    [destruct (Rgeb (max_position_ b) 0) eqn:E2;
       [apply Rgeb_true in E2 | apply Rgeb_false in E2] |];
    simpl; eexists; (split; [reflexivity |]); simpl; cmp; simpl;
    try lra; reflexivity.
Qed.

Lemma getVariableDefaultValues_satisfies_witness :
  exists values' : list R,
    getVariableDefaultValues bounded_z [7] [mkVariableBounds 1 2 true]
    = Some values'
    /\ satisfiesBounds bounded_z values' [mkVariableBounds 1 2 true] 0
       = Some true.
Proof.
  apply (getVariableDefaultValues_satisfies bounded_z 7 []
           (mkVariableBounds 1 2 true) [] 0);
    [reflexivity | simpl; lra | lra].
Defined.

(** ** The metric *)

(** X4: [distance] obeys the triangle inequality: on a bounded joint for all
    values, on a continuous joint for values of [[-PI, PI]]. *)
Theorem distance_triangle :
  forall (j : RevoluteJointModel) (a b c : R) (ra rb rc : list R),
    (continuous_ j = true ->
     - PI <= a <= PI /\ - PI <= b <= PI /\ - PI <= c <= PI) ->
    exists dab dbc dac : R,
      distance j (a :: ra) (b :: rb) = Some dab
      /\ distance j (b :: rb) (c :: rc) = Some dbc
      /\ distance j (a :: ra) (c :: rc) = Some dac
      /\ dac <= dab + dbc.
Proof.
  intros j a b c ra rb rc Hr; unfold distance; simpl.
  destruct (continuous_ j).
  - destruct (Hr eq_refl) as (Ha & Hb & Hc).
    do 3 eexists; repeat (split; [reflexivity |]).
    cmp; split_abs; lra.
  - do 3 eexists; repeat (split; [reflexivity |]).
    split_abs; lra.
Qed.

Lemma distance_triangle_witness :
  exists dab dbc dac : R,
    distance continuous_z [3] [- 3] = Some dab
    /\ distance continuous_z [- 3] [0] = Some dbc
    /\ distance continuous_z [3] [0] = Some dac
    /\ dac <= dab + dbc.
Proof.
  pose proof PI_gt_3 as H3.
  apply (distance_triangle continuous_z 3 (- 3) 0 [] [] []).
  intros _; lra.
Defined.

(** X5: on a continuous joint the result of [distance] is negative exactly
    when the two values are more than a full turn apart; it is never
    negative on a bounded joint. *)
Theorem distance_sign :
  forall (j : RevoluteJointModel) (a b : R) (ra rb : list R),
    exists d : R,
      distance j (a :: ra) (b :: rb) = Some d
      /\ (continuous_ j = true -> (d < 0 <-> 2 * PI < Rabs (a - b)))
      /\ (continuous_ j = false -> 0 <= d).
Proof.
  intros j a b ra rb; unfold distance, fabs; simpl.
  pose proof PI_RGT_0 as Hpi; pose proof (Rabs_pos (a - b)) as Hp.
  destruct (continuous_ j); eexists; (split; [reflexivity |]);
    (split; [intros Hc | intros Hc]); try discriminate; try lra.
  cmp; split; intros; lra.
Qed.

(** X6: [distance] is zero exactly for equal values on a bounded joint; on a
    continuous joint with values of [[-PI, PI]], exactly for equal values and
    for the two ends -PI and PI, which are the same angle. *)
Theorem distance_zero :
  forall (j : RevoluteJointModel) (a b : R) (ra rb : list R),
    exists d : R,
      distance j (a :: ra) (b :: rb) = Some d
      /\ (continuous_ j = false -> (d = 0 <-> a = b))
      /\ (continuous_ j = true ->
          - PI <= a <= PI -> - PI <= b <= PI ->
          (d = 0 <->
           a = b \/ (a = - PI /\ b = PI) \/ (a = PI /\ b = - PI))).
Proof.
  intros j a b ra rb; unfold distance; simpl.
  pose proof PI_RGT_0 as Hpi.
  destruct (continuous_ j); eexists; (split; [reflexivity |]);
    (split; [intros Hc | intros Hc]); try discriminate.
  - intros Ha Hb; cmp; split.
    + intros H; right; split_abs; [left | right]; split; lra.
    + intros [H | [[H1 H2] | [H1 H2]]]; split_abs; lra.
    + intros H; left; split_abs; lra.
    + intros [H | [[H1 H2] | [H1 H2]]]; split_abs; lra.
  - split; intros H; split_abs; lra.
Qed.

Lemma distance_zero_witness :
  exists d : R,
    distance continuous_z [- PI] [PI] = Some d
    /\ (continuous_ continuous_z = false -> (d = 0 <-> - PI = PI))
    /\ (continuous_ continuous_z = true ->
        - PI <= - PI <= PI -> - PI <= PI <= PI ->
        (d = 0 <->
         - PI = PI \/ (- PI = - PI /\ PI = PI) \/ (- PI = PI /\ PI = - PI))).
Proof.
  apply (distance_zero continuous_z (- PI) PI [] []).
Defined.

(** X7: two values within the joint's own first bounds are never further
    apart, by [distance], than [getMaximumExtent] says, in either mode. *)
Theorem distance_within_extent :
  forall (j : RevoluteJointModel) (bd : VariableBounds)
         (brest other_bounds : Bounds) (a b : R) (ra rb : list R),
    variable_bounds_ j = bd :: brest ->
    min_position_ bd <= a <= max_position_ bd ->
    min_position_ bd <= b <= max_position_ bd ->
    exists d e : R,
      distance j (a :: ra) (b :: rb) = Some d
      /\ getMaximumExtent j other_bounds = Some e
      /\ d <= e.
Proof.
  intros j bd brest other a b ra rb Hb Ha Hbb.
  unfold distance, getMaximumExtent; rewrite Hb; simpl.
  destruct (continuous_ j); do 2 eexists;
    repeat (split; [reflexivity |]); cmp; split_abs; lra.
Qed.

Lemma distance_within_extent_witness :
  exists d e : R,
    distance bounded_z [3] [- 3] = Some d
    /\ getMaximumExtent bounded_z [] = Some e
    /\ d <= e.
Proof.
  pose proof PI_gt_3 as H3.
  apply (distance_within_extent bounded_z (mkVariableBounds (- PI) PI true)
           [] [] 3 (- 3) [] []); [reflexivity | simpl; lra | simpl; lra].
Defined.

Lemma distance_sign_witness :
  exists d : R, distance continuous_z [10] [0] = Some d /\ d < 0.
Proof.
  pose proof PI_4 as H4.
  destruct (distance_sign continuous_z 10 0 [] []) as (d & Hd & Hc & _).
  exists d; split; [exact Hd |].
  apply (Hc eq_refl); split_abs; lra.
Defined.

(** ** Interpolation between two values *)

(** X8: on a continuous joint, between two values of [[-PI, PI]] and for
    [t] in [[0, 1]], the value [interpolate] stores is in [[-PI, PI]]: the
    single correction after the complementary arc is enough. *)
Theorem interpolate_continuous_within :
  forall (j : RevoluteJointModel) (from to : R) (rf rt : list R)
         (t s : R) (rs : list R),
    continuous_ j = true ->
    - PI <= from <= PI -> - PI <= to <= PI -> 0 <= t <= 1 ->
    exists x : R,
      interpolate j (from :: rf) (to :: rt) t (s :: rs) = Some (x :: rs)
      /\ - PI <= x <= PI.
Proof.
  intros j from to rf rt t s rs Hc Hf Ht Htt.
  pose proof PI_RGT_0 as Hpi.
  unfold interpolate; rewrite Hc; simpl.
  cmp; simpl; eexists; (split; [reflexivity |]); split_abs; nra.
Qed.

Lemma interpolate_continuous_within_witness :
  exists x : R,
    interpolate continuous_z [3] [- 3] (1 / 4) [0] = Some [x]
    /\ - PI <= x <= PI.
Proof.
  pose proof PI_gt_3 as H3.
  apply (interpolate_continuous_within continuous_z 3 (- 3) [] [] (1 / 4) 0 []);
    [reflexivity | lra | lra | lra].
Defined.

(** X9: [interpolate] moves along the arc [distance] measures, at constant
    rate: for [t] in [[0, 1]] the distance from [from] to the interpolated
    value is [t] times the distance from [from] to [to].  On a continuous
    joint this is for values of [[-PI, PI]]. *)
Theorem interpolate_distance_proportional :
  forall (j : RevoluteJointModel) (from to : R) (rf rt : list R)
         (t s : R) (rs : list R),
    (continuous_ j = true -> - PI <= from <= PI /\ - PI <= to <= PI) ->
    0 <= t <= 1 ->
    exists (x d : R),
      interpolate j (from :: rf) (to :: rt) t (s :: rs) = Some (x :: rs)
      /\ distance j (from :: rf) (to :: rt) = Some d
      /\ distance j (from :: rf) (x :: rs) = Some (t * d).
Proof.
  intros j from to rf rt t s rs Hr Htt.
  pose proof PI_RGT_0 as Hpi.
  unfold interpolate, distance; simpl.
  destruct (continuous_ j).
  - destruct (Hr eq_refl) as [Hf Ht].
    cmp; simpl; do 2 eexists;
      (split; [reflexivity |]); (split; [reflexivity |]);
      f_equal; cmp; split_abs; nra.
  - simpl; do 2 eexists;
      (split; [reflexivity |]); (split; [reflexivity |]);
      f_equal; split_abs; nra.
Qed.

Lemma interpolate_distance_proportional_witness :
  exists (x d : R),
    interpolate continuous_z [3] [- 3] (1 / 4) [0] = Some [x]
    /\ distance continuous_z [3] [- 3] = Some d
    /\ distance continuous_z [3] [x] = Some (1 / 4 * d).
Proof.
  pose proof PI_gt_3 as H3.
  apply (interpolate_distance_proportional continuous_z 3 (- 3) [] []
           (1 / 4) 0 []); [intros _; lra | lra].
Defined.

(** X10: on a bounded joint, between two values that satisfy the bounds
    with some margin and for [t] in [[0, 1]], the interpolated value
    satisfies the bounds with that margin too. *)
Theorem interpolate_bounded_satisfies :
  forall (j : RevoluteJointModel) (from to : R) (rf rt : list R)
         (t s : R) (rs : list R) (bounds : Bounds) (margin : R),
    continuous_ j = false -> 0 <= t <= 1 ->
    satisfiesBounds j (from :: rf) bounds margin = Some true ->
    satisfiesBounds j (to :: rt) bounds margin = Some true ->
    exists x : R,
      interpolate j (from :: rf) (to :: rt) t (s :: rs) = Some (x :: rs)
      /\ satisfiesBounds j (x :: rs) bounds margin = Some true.
Proof.
  intros j from to rf rt t s rs bounds margin Hc Htt.
  unfold interpolate, satisfiesBounds; rewrite Hc; simpl.
  destruct bounds as [| b brest]; simpl; [discriminate |].
  destruct (Rltb from _) eqn:F1; [discriminate | apply Rltb_false in F1].
  destruct (Rgtb from _) eqn:F2; [discriminate | apply Rgtb_false in F2].
  destruct (Rltb to _) eqn:T1; [discriminate | apply Rltb_false in T1].
  destruct (Rgtb to _) eqn:T2; [discriminate | apply Rgtb_false in T2].
  intros _ _; eexists; split; [reflexivity |].
  cmp; simpl; try reflexivity; nra.
Qed.

Lemma interpolate_bounded_satisfies_witness :
  exists x : R,
    interpolate bounded_z [0] [1] (1 / 2) [7] = Some [x]
    /\ satisfiesBounds bounded_z [x] [mkVariableBounds 0 1 true] 0 = Some true.
Proof.
  apply (interpolate_bounded_satisfies bounded_z 0 1 [] [] (1 / 2) 7 []
           [mkVariableBounds 0 1 true] 0);
    [reflexivity | lra | |];
    unfold satisfiesBounds; simpl; cmp; simpl; try reflexivity; lra.
Defined.

(** X11: on a continuous joint, between two values of [[-PI, PI]],
    interpolating from [to] back to [from] at [1 - t] gives the value of
    interpolating from [from] to [to] at [t], or the two results are the two
    ends -PI and PI. *)
Theorem interpolate_reversed :
  forall (j : RevoluteJointModel) (from to : R) (rf rt : list R)
         (t s : R) (rs : list R),
    continuous_ j = true ->
    - PI <= from <= PI -> - PI <= to <= PI -> 0 <= t <= 1 ->
    exists x y : R,
      interpolate j (from :: rf) (to :: rt) t (s :: rs) = Some (x :: rs)
      /\ interpolate j (to :: rt) (from :: rf) (1 - t) (s :: rs)
         = Some (y :: rs)
      /\ (x = y \/ (x = - PI /\ y = PI) \/ (x = PI /\ y = - PI)).
Proof.
  intros j from to rf rt t s rs Hc Hf Ht Htt.
  pose proof PI_RGT_0 as Hpi.
  unfold interpolate; rewrite Hc; simpl.
  replace (from - to) with (- (to - from)) by ring.
  unfold fabs; rewrite Rabs_Ropp.
  destruct (Rleb (Rabs (to - from)) PI) eqn:E;
    [apply Rleb_true in E | apply Rleb_false in E].
  - simpl; do 2 eexists; repeat (split; [reflexivity |]); left; ring.
  - destruct (Rgtb (to - from) 0) eqn:E1;
      [apply Rgtb_true in E1 | apply Rgtb_false in E1];
      (destruct (Rgtb (- (to - from)) 0) eqn:E2;
       [apply Rgtb_true in E2 | apply Rgtb_false in E2]);
      try (split_abs; lra);
      cmp; simpl; do 2 eexists; repeat (split; [reflexivity |]);
      try (split_abs; nra);
      try (left; lra);
      try (right; left; split; lra);
      try (right; right; split; lra).
Qed.

Lemma interpolate_reversed_witness :
  exists x y : R,
    interpolate continuous_z [3] [- 3] (1 / 4) [0] = Some [x]
    /\ interpolate continuous_z [- 3] [3] (1 - 1 / 4) [0] = Some [y]
    /\ (x = y \/ (x = - PI /\ y = PI) \/ (x = PI /\ y = - PI)).
Proof.
  pose proof PI_gt_3 as H3.
  apply (interpolate_reversed continuous_z 3 (- 3) [] [] (1 / 4) 0 []);
    [reflexivity | lra | lra | lra].
Defined.

(** ** Switching the bounds *)

(** X12: [setContinuous] with [true] makes the joint's first bounds the
    unbounded [[-PI, PI]], so that the extent is [2 PI], and leaves the
    flag the operations branch on as it was: bounds are enforced and
    checked after the call as they were before it. *)
Theorem setContinuous_true :
  forall (j : RevoluteJointModel) (b : VariableBounds) (rest : Bounds),
    variable_bounds_ j = b :: rest ->
    exists j' : RevoluteJointModel,
      setContinuous j true = Some j'
      /\ variable_bounds_ j' = mkVariableBounds (- PI) PI false :: rest
      /\ (forall other_bounds : Bounds,
             getMaximumExtent j' other_bounds = Some (2 * PI))
      /\ continuous_ j' = continuous_ j
      /\ (forall (values : list R) (bounds : Bounds) (margin : R),
             enforceBounds j' values bounds = enforceBounds j values bounds
             /\ satisfiesBounds j' values bounds margin
                = satisfiesBounds j values bounds margin).
Proof.
  intros j b rest Hb; unfold setContinuous; rewrite Hb; simpl.
  eexists; split; [reflexivity |]; simpl.
  split; [reflexivity | split; [| split; [reflexivity |]]].
  - intros other; unfold getMaximumExtent; simpl; f_equal; lra.
  - intros values bounds margin; split; reflexivity.
Qed.

Lemma setContinuous_true_witness :
  exists j' : RevoluteJointModel,
    setContinuous (RevoluteJointModel_new "elbow") true = Some j'
    /\ variable_bounds_ j' = mkVariableBounds (- PI) PI false :: []
    /\ (forall other_bounds : Bounds,
           getMaximumExtent j' other_bounds = Some (2 * PI))
    /\ continuous_ j' = continuous_ (RevoluteJointModel_new "elbow")
    /\ (forall (values : list R) (bounds : Bounds) (margin : R),
           enforceBounds j' values bounds
           = enforceBounds (RevoluteJointModel_new "elbow") values bounds
           /\ satisfiesBounds j' values bounds margin
              = satisfiesBounds (RevoluteJointModel_new "elbow")
                  values bounds margin).
Proof.
  apply (setContinuous_true (RevoluteJointModel_new "elbow")
           (mkVariableBounds (- PI) PI true) []).
  reflexivity.
Defined.

(** X13: [setContinuous] with [false] keeps the limits and marks them
    bounded; called after [setContinuous] with [true] it does not bring the
    earlier limits back: they stay [-PI] and [PI]. *)
Theorem setContinuous_false :
  forall (j : RevoluteJointModel) (b : VariableBounds) (rest : Bounds),
    variable_bounds_ j = b :: rest ->
    (exists j1 : RevoluteJointModel,
        setContinuous j false = Some j1
        /\ variable_bounds_ j1
           = mkVariableBounds (min_position_ b) (max_position_ b) true :: rest)
    /\ (exists j2 j3 : RevoluteJointModel,
           setContinuous j true = Some j2
           /\ setContinuous j2 false = Some j3
           /\ variable_bounds_ j3 = mkVariableBounds (- PI) PI true :: rest).
Proof.
  intros j b rest Hb; unfold setContinuous; rewrite Hb; simpl; split.
  - eexists; split; reflexivity.
  - do 2 eexists; split; [reflexivity |]; simpl; split; reflexivity.
Qed.

Lemma setContinuous_false_witness :
  (exists j1 : RevoluteJointModel,
      setContinuous bounded_z false = Some j1
      /\ variable_bounds_ j1
         = mkVariableBounds (min_position_ (mkVariableBounds (- PI) PI true))
             (max_position_ (mkVariableBounds (- PI) PI true)) true :: [])
  /\ (exists j2 j3 : RevoluteJointModel,
         setContinuous bounded_z true = Some j2
         /\ setContinuous j2 false = Some j3
         /\ variable_bounds_ j3 = mkVariableBounds (- PI) PI true :: []).
Proof.
  apply (setContinuous_false bounded_z (mkVariableBounds (- PI) PI true) []).
  reflexivity.
Defined.

(** ** Sampling *)

Lemma FixedFraction_drawsWithin (g : FixedFraction) :
  0 <= fraction g <= 1 -> drawsWithin g.
Proof.
  intros Hg lower upper Hlu; simpl; nra.
Qed.

(** X14: with a generator that draws within its limits and [min <= max],
    [getVariableRandomValues] stores a value of [[min, max]]. *)
Theorem getVariableRandomValues_within :
  forall (G : Type) (RNG : RandomNumberGenerator G) (rng : G)
         (j : RevoluteJointModel) (v : R) (rest : list R)
         (b : VariableBounds) (brest : Bounds),
    drawsWithin rng ->
    min_position_ b <= max_position_ b ->
    exists (x : R) (rng' : G),
      getVariableRandomValues j rng (v :: rest) (b :: brest)
      = Some (x :: rest, rng')
      /\ min_position_ b <= x <= max_position_ b.
Proof.
  intros G RNG rng j v rest b brest Hd Hmm.
  unfold getVariableRandomValues; simpl.
  specialize (Hd _ _ Hmm).
  destruct (uniformReal rng (min_position_ b) (max_position_ b)) as [x rng'].
  simpl in *; exists x, rng'; split; [reflexivity | exact Hd].
Qed.

Lemma getVariableRandomValues_within_witness :
  exists (x : R) (rng' : FixedFraction),
    getVariableRandomValues bounded_z (mkFixedFraction (1 / 2)) [7; 5]
      [mkVariableBounds 0 1 true]
    = Some ([x; 5], rng')
    /\ 0 <= x <= 1.
Proof.
  apply (getVariableRandomValues_within FixedFraction _
           (mkFixedFraction (1 / 2)) bounded_z 7 [5]
           (mkVariableBounds 0 1 true) []).
  - apply FixedFraction_drawsWithin; simpl; lra.
  - simpl; lra.
Defined.

(** X15: on a bounded joint, when the bounds and the interval of radius
    [distance] around [near] meet, [getVariableRandomValuesNearBy] stores a
    value that is within the bounds and within [distance] of [near]. *)
Theorem getVariableRandomValuesNearBy_bounded :
  forall (G : Type) (RNG : RandomNumberGenerator G) (rng : G)
         (j : RevoluteJointModel) (v : R) (rest : list R)
         (b : VariableBounds) (brest : Bounds)
         (near0 : R) (nrest : list R) (distance : R),
    continuous_ j = false ->
    drawsWithin rng ->
    Rmax (min_position_ b) (near0 - distance)
    <= Rmin (max_position_ b) (near0 + distance) ->
    exists (x : R) (rng' : G),
      getVariableRandomValuesNearBy j rng (v :: rest) (b :: brest)
        (near0 :: nrest) distance
      = Some (x :: rest, rng')
      /\ min_position_ b <= x <= max_position_ b
      /\ Rabs (x - near0) <= distance.
Proof.
  intros G RNG rng j v rest b brest near0 nrest dist Hc Hd Hmeet.
  unfold getVariableRandomValuesNearBy; rewrite Hc; simpl.
  specialize (Hd _ _ Hmeet).
  destruct (uniformReal rng _ _) as [x rng'].
  simpl in *; exists x, rng'; split; [reflexivity |].
  pose proof (Rbasic_fun.Rmax_l (min_position_ b) (near0 - dist)).
  pose proof (Rbasic_fun.Rmax_r (min_position_ b) (near0 - dist)).
  pose proof (Rbasic_fun.Rmin_l (max_position_ b) (near0 + dist)).
  pose proof (Rbasic_fun.Rmin_r (max_position_ b) (near0 + dist)).
  split; [lra | apply Rabs_le; lra].
Qed.

Lemma getVariableRandomValuesNearBy_bounded_witness :
  exists (x : R) (rng' : FixedFraction),
    getVariableRandomValuesNearBy bounded_z (mkFixedFraction (1 / 2)) [7; 5]
      [mkVariableBounds 0 1 true] [1] (1 / 2)
    = Some ([x; 5], rng')
    /\ 0 <= x <= 1
    /\ Rabs (x - 1) <= 1 / 2.
Proof.
  apply (getVariableRandomValuesNearBy_bounded FixedFraction _
           (mkFixedFraction (1 / 2)) bounded_z 7 [5]
           (mkVariableBounds 0 1 true) [] 1 [] (1 / 2)).
  - reflexivity.
  - apply FixedFraction_drawsWithin; simpl; lra.
  - simpl; unfold Rmax, Rmin;
      repeat match goal with
             | |- context [Rle_dec ?x ?y] => destruct (Rle_dec x y)
             end; lra.
Defined.

(** X16: on a continuous joint, for a distance that is not negative,
    [getVariableRandomValuesNearBy] stores a value of [[-PI, PI]]; when
    [near] is in [[-PI, PI]] as well, that value is within [distance] of
    [near] as the joint's own [distance] measures it. *)
Theorem getVariableRandomValuesNearBy_continuous :
  forall (G : Type) (RNG : RandomNumberGenerator G) (rng : G)
         (j : RevoluteJointModel) (v : R) (rest : list R) (bounds : Bounds)
         (near0 : R) (nrest : list R) (dist : R),
    continuous_ j = true ->
    drawsWithin rng ->
    0 <= dist ->
    exists (x : R) (rng' : G),
      getVariableRandomValuesNearBy j rng (v :: rest) bounds
        (near0 :: nrest) dist
      = Some (x :: rest, rng')
      /\ - PI <= x <= PI
      /\ (- PI <= near0 <= PI ->
          exists d : R,
            distance j (x :: rest) (near0 :: nrest) = Some d /\ d <= dist).
Proof.
  intros G RNG rng j v rest bounds near0 nrest dist Hc Hd Hdist.
  pose proof PI_RGT_0 as Hpi.
  unfold getVariableRandomValuesNearBy; rewrite Hc; simpl.
  assert (Hlu : near0 - dist <= near0 + dist) by lra.
  specialize (Hd _ _ Hlu).
  destruct (uniformReal rng _ _) as [u rng']; simpl in *.
  destruct (enforceBounds_continuous_value j u rest bounds Hc)
    as (x & k & He & Hx & Hk & _).
  rewrite He; simpl.
  exists x, rng'; split; [reflexivity | split; [exact Hx |]].
  intros Hn; unfold distance; rewrite Hc; simpl.
  eexists; split; [reflexivity |].
  assert (Hcases : (k = 0)%Z \/ (1 <= k)%Z \/ (k <= - 1)%Z) by lia.
  destruct Hcases as [Hk0 | [Hk1 | Hk1]].
  - rewrite Hk0 in Hk; cmp; split_abs; lra.
  - apply IZR_le in Hk1.
    assert (2 * PI <= IZR k * (2 * PI)) by nra.
    cmp; split_abs; lra.
  - apply IZR_le in Hk1.
    assert (IZR k * (2 * PI) <= - (2 * PI)) by nra.
    cmp; split_abs; lra.
Qed.

Lemma getVariableRandomValuesNearBy_continuous_witness :
  exists (x : R) (rng' : FixedFraction),
    getVariableRandomValuesNearBy continuous_z (mkFixedFraction 1) [7; 5]
      [unbounded_pi] [3] 1
    = Some ([x; 5], rng')
    /\ - PI <= x <= PI
    /\ (- PI <= 3 <= PI ->
        exists d : R, distance continuous_z [x; 5] [3] = Some d /\ d <= 1).
Proof.
  apply (getVariableRandomValuesNearBy_continuous FixedFraction _
           (mkFixedFraction 1) continuous_z 7 [5] [unbounded_pi] 3 [] 1).
  - reflexivity.
  - apply FixedFraction_drawsWithin; simpl; lra.
  - lra.
Defined.

(** ** The forward transform *)

Lemma sin_cos_turns (x : R) (k : Z) :
  sin (x + IZR k * (2 * PI)) = sin x /\ cos (x + IZR k * (2 * PI)) = cos x.
Proof.
  destruct (Z_le_gt_dec 0 k) as [Hk | Hk].
  - rewrite <- (Z2Nat.id k Hk), <- INR_IZR_INZ.
    replace (x + INR (Z.to_nat k) * (2 * PI))
      with (x + 2 * INR (Z.to_nat k) * PI) by ring.
    split; [apply sin_period | apply cos_period].
  - assert (Hn : (0 <= - k)%Z) by lia.
    assert (Hx : x = x + IZR k * (2 * PI) + 2 * INR (Z.to_nat (- k)) * PI).
    { rewrite INR_IZR_INZ, (Z2Nat.id _ Hn), opp_IZR; ring. }
    split.
    + rewrite Hx at 2; symmetry; apply sin_period.
    + rewrite Hx at 2; symmetry; apply cos_period.
Qed.

(** X17: on a continuous joint, enforcing the bounds does not change the
    transform of the joint: the value stored has the transform of the value
    given. *)
Theorem computeTransform_enforceBounds :
  forall (j : RevoluteJointModel) (v : R) (rest : list R) (bounds : Bounds),
    continuous_ j = true ->
    exists values' : list R,
      enforceBounds j (v :: rest) bounds = Some values'
      /\ computeTransform j values' = computeTransform j (v :: rest).
Proof.
  intros j v rest bounds Hc.
  destruct (enforceBounds_continuous_value j v rest bounds Hc)
    as (r & k & He & _ & Hk & _).
  exists (r :: rest); split; [exact He |].
  unfold computeTransform, Affine3d_of_AngleAxisd, toRotationMatrix; simpl.
  destruct (sin_cos_turns v k) as [Hs Hco].
  rewrite Hk, Hs, Hco; reflexivity.
Qed.

Lemma computeTransform_enforceBounds_witness :
  exists values' : list R,
    enforceBounds continuous_z [7] [unbounded_pi] = Some values'
    /\ computeTransform continuous_z values' = computeTransform continuous_z [7].
Proof.
  apply (computeTransform_enforceBounds continuous_z 7 [] [unbounded_pi]).
  reflexivity.
Defined.

(** X18: for a joint with a unit axis, the transform of every value is a
    proper rotation (orthogonal, of determinant 1) without translation. *)
Theorem computeTransform_isRotation :
  forall (j : RevoluteJointModel) (v : R) (rest : list R),
    isUnit (axis_ j) ->
    exists T : Affine3d,
      computeTransform j (v :: rest) = Some T
      /\ isRotation (linear T)
      /\ translation T = mkVector3d 0 0 0.
Proof.
  intros j v rest Hu; eexists; split; [reflexivity |]; simpl.
  split; [apply toRotationMatrix_isRotation; exact Hu | reflexivity].
Qed.

Lemma computeTransform_isRotation_witness :
  exists T : Affine3d,
    computeTransform bounded_z [1] = Some T
    /\ isRotation (linear T)
    /\ translation T = mkVector3d 0 0 0.
Proof.
  apply (computeTransform_isRotation bounded_z 1 []).
  unfold isUnit; simpl; ring.
Defined.

(** X19: for a joint with a unit axis, transforms compose as the values
    add: the rotation of [u + v] is the product of the rotations of [u] and
    of [v].  For every axis the rotation of 0 is the identity and the
    rotation of [- v] is the transpose of the rotation of [v]. *)
Theorem computeTransform_additive :
  forall (j : RevoluteJointModel) (u v : R) (ru rv ruv : list R),
    exists Tu Tv Tuv T0 Tm : Affine3d,
      computeTransform j (u :: ru) = Some Tu
      /\ computeTransform j (v :: rv) = Some Tv
      /\ computeTransform j (u + v :: ruv) = Some Tuv
      /\ computeTransform j (0 :: ruv) = Some T0
      /\ computeTransform j (- v :: rv) = Some Tm
      /\ (isUnit (axis_ j) -> linear Tuv = mul (linear Tu) (linear Tv))
      /\ linear T0 = Identity
      /\ linear Tm = transpose (linear Tv).
Proof.
  intros j u v ru rv ruv; do 5 eexists.
  repeat (split; [reflexivity |]); simpl.
  unfold isUnit, toRotationMatrix, mul, transpose, Identity; simpl.
  destruct (axis_ j) as [ax ay az]; simpl.
  split; [| split].
  - rewrite sin_plus, cos_plus.
    pose proof (sin2_cos2 u) as Hu; pose proof (sin2_cos2 v) as Hv.
    unfold Rsqr in *; revert Hu Hv.
    generalize (sin u) (cos u) (sin v) (cos v); intros su cu sv cv Hu Hv Ha.
    f_equal; nsatz.
  - rewrite sin_0, cos_0; f_equal; ring.
  - rewrite sin_neg, cos_neg; f_equal; ring.
Qed.

Lemma computeTransform_additive_witness :
  exists Tu Tv Tuv : Affine3d,
    computeTransform bounded_z [1] = Some Tu
    /\ computeTransform bounded_z [2] = Some Tv
    /\ computeTransform bounded_z [1 + 2] = Some Tuv
    /\ linear Tuv = mul (linear Tu) (linear Tv).
Proof.
  destruct (computeTransform_additive bounded_z 1 2 [] [] [])
    as (Tu & Tv & Tuv & T0 & Tm & Hu & Hv & Huv & _ & _ & Hadd & _).
  exists Tu, Tv, Tuv; repeat (split; [assumption |]).
  apply Hadd; unfold isUnit; simpl; ring.
Defined.

(** ** The inverse transform *)

(** X20: whatever the transform, the value [computeVariableValues] stores
    is in [[0, 2 PI]]: it is never negative.  So on a bounded joint whose
    upper limit, margin included, is negative, that value never satisfies
    the bounds. *)
Theorem computeVariableValues_range :
  forall (j : RevoluteJointModel) (transf : Affine3d)
         (out : R) (orest : list R)
         (b : VariableBounds) (brest : Bounds) (margin : R),
    exists r : R,
      computeVariableValues j transf (out :: orest) = Some (r :: orest)
      /\ 0 <= r <= 2 * PI
      /\ (continuous_ j = false -> max_position_ b + margin < 0 ->
          satisfiesBounds j (r :: orest) (b :: brest) margin = Some false).
Proof.
  intros j transf out orest b brest margin.
  unfold computeVariableValues; cbn [set0].
  match goal with
  | |- context [acos ?w] =>
      pose proof (acos_bound w) as Hb; remember (acos w) as h
  end.
  exists (h * 2); split; [reflexivity | split; [lra |]].
  intros Hc Hmax; unfold satisfiesBounds; rewrite Hc; simpl.
  cmp; simpl; try reflexivity; lra.
Qed.

Lemma computeVariableValues_range_witness :
  exists (T : Affine3d) (r : R),
    computeTransform bounded_z [- 1] = Some T
    /\ computeVariableValues bounded_z T [0] = Some [r]
    /\ 0 <= r <= 2 * PI
    /\ satisfiesBounds bounded_z [r] [mkVariableBounds (- 2) (- 1 / 2) true] 0
       = Some false.
Proof.
  eexists.
  destruct (computeVariableValues_range bounded_z
              (Affine3d_of_AngleAxisd (- 1) (axis_ bounded_z)) 0 []
              (mkVariableBounds (- 2) (- 1 / 2) true) [] 0)
    as (r & Hr & Hrange & Hsat).
  exists r; split; [reflexivity | split; [exact Hr | split; [exact Hrange |]]].
  apply Hsat; [reflexivity | simpl; lra].
Defined.
